(** * Gemini TTS Studio: the audio pipeline of [src/App.tsx] and
    [src/services/geminiService.ts], embedded and verified.

    The development follows the order of the source:
    - JavaScript values the code handles (strings, numbers, exceptions);
    - the platform functions it calls ([atob], typed arrays, Web Audio);
    - [decode] and [decodeAudioData];
    - the SSML template of the [useEffect] hook;
    - [synthesizeSpeech];
    - the playback controller ([stopPlayback], [handleSynthesizeAndPlay]). *)

From Stdlib Require Import ZArith NArith QArith Qround Qpower Lia Bool.
From Stdlib.Strings Require Import Byte Ascii String.
From Stdlib Require Import SpecFloat DecimalString.
From stdpp Require Import base list.

Local Close Scope Q_scope.
Local Open Scope nat_scope.

(** ** JavaScript values *)

(** A JavaScript string is a sequence of UTF-16 code units. *)
Abbreviation codeunit := N (only parsing).
Abbreviation jsstring := (list N) (only parsing).

(** ASCII literals of the source text, as code units. *)
Definition lit (s : string) : jsstring :=
  map N_of_ascii (list_ascii_of_string s).

(** Values the code can throw or catch.  The platform exceptions carry an
    implementation-defined message; [JsError m] is [new Error(m)]. *)
Inductive exn :=
| JsError (message : jsstring)
| RangeError
| NotSupportedError
| IndexSizeError
| InvalidCharacterError.

(** The completion of a call: a value, a thrown exception, or a loop cut
    short by the recursion bound of the embedding. *)
Inductive outcome (A : Type) :=
| Return (a : A)
| Throw (e : exn)
| OutOfFuel.
Arguments Return {A} a.
Arguments Throw {A} e.
Arguments OutOfFuel {A}.

#[global] Instance outcome_bind : MBind outcome := fun A B k c =>
  match c with
  | Return a => k a
  | Throw e => Throw e
  | OutOfFuel => OutOfFuel
  end.

(** Numbers of [decodeAudioData], as exact rationals with the two IEEE
    specials that a division by zero or an [undefined] operand yields.  The
    Numbers there are integers below 2^53, on which double arithmetic is
    exact; a 16-bit integer over 2^15, which binary32 holds exactly; and the
    quotient [length / numChannels], which the code only truncates and
    compares with integers: for operands below 2^52 the rounded quotient
    truncates and compares as the exact one.  [sample_exact_int16] and
    [quotient_agrees_small] check both against binary64. *)
Inductive number :=
| Num (q : Q)
| PosInf
| NaN.

(** [a / b] on integer-valued operands, [0 <= b]. *)
Definition number_div (a b : Z) : number :=
  if (b =? 0)%Z then (if (0 <? a)%Z then PosInf else NaN)
  else Num (Qred (inject_Z a / inject_Z b)).

(** [i < x] for an integer [i]. *)
Definition number_lt (i : nat) (x : number) : bool :=
  match x with
  | Num q => negb (Qle_bool q (inject_Z (Z.of_nat i)))
  | PosInf => true
  | NaN => false
  end.

(** Web IDL conversion to [unsigned long]: NaN and the infinities give 0, a
    finite value is truncated toward zero and reduced modulo 2^32. *)
Definition unsigned_long (x : number) : Z :=
  match x with
  | Num q => (if Qle_bool 0 q then Qfloor q else Qceiling q) mod 2 ^ 32
  | PosInf | NaN => 0
  end%Z.

(** ** Typed arrays *)

(** A [Uint8Array] is a view of [length] bytes at [byteOffset] into its
    [buffer]. *)
Record Uint8Array := mkUint8Array {
  buffer : list byte;
  byteOffset : nat;
  u8length : nat
}.

(** The bytes a [Uint8Array] holds, its payload: [length] bytes of its
    buffer, from [byteOffset] on. *)
Definition payload (a : Uint8Array) : list byte :=
  take (u8length a) (drop (byteOffset a) (buffer a)).

(** A view of its whole buffer. *)
Definition whole_buffer (a : Uint8Array) : Prop :=
  byteOffset a = 0 /\ u8length a = length (buffer a).

(** [new Uint8Array(len)]: a fresh zeroed buffer, viewed whole. *)
Definition Uint8Array_new (len : nat) : Uint8Array :=
  {| buffer := replicate len x00; byteOffset := 0; u8length := len |}.

(** Storing a Number into a [Uint8Array] element keeps it modulo 256. *)
Definition ToUint8 (n : N) : byte :=
  byte_of_ascii (ascii_of_N n).

(** [bytes[i] = v]; out of range the store is ignored. *)
Definition Uint8Array_set (a : Uint8Array) (i : nat) (v : N) : Uint8Array :=
  if i <? u8length a
  then {| buffer := <[byteOffset a + i := ToUint8 v]> (buffer a);
          byteOffset := byteOffset a; u8length := u8length a |}
  else a.

(** One element of an [Int16Array]: two bytes, low byte first (typed arrays
    use the byte order of the platform, little-endian on every browser
    target), read as two's complement. *)
Definition int16_le (lo hi : byte) : Z :=
  let u := (Z.of_N (Byte.to_N lo) + 256 * Z.of_N (Byte.to_N hi))%Z in
  if (u <? 32768)%Z then u else (u - 65536)%Z.

Fixpoint int16_elements (bs : list byte) : list Z :=
  match bs with
  | lo :: hi :: rest => int16_le lo hi :: int16_elements rest
  | _ => []
  end.

(** [new Int16Array(buffer)]: a [RangeError] unless the byte length of the
    buffer is a multiple of 2; the view has [byteLength / 2] elements. *)
Definition Int16Array_new (buf : list byte) : outcome (list Z) :=
  if length buf mod 2 =? 0 then Return (int16_elements buf)
  else Throw RangeError.

(** ** Web Audio *)

(** An [AudioContext], as far as [createBuffer] depends on it: the limits
    of the implementation.  The standard requires at least 32 channels and
    the sample rates from 8000 to 96000. *)
Record AudioContext := mkAudioContext {
  maxChannels : nat;
  minSampleRate : Q;
  maxSampleRate : Q
}.

(** The least a conforming implementation offers. *)
Definition standard_context : AudioContext :=
  {| maxChannels := 32; minSampleRate := 8000; maxSampleRate := 96000 |}.

Record AudioBuffer := mkAudioBuffer {
  sampleRate : Q;
  frames : nat;
  channels : list (list number)
}.

Definition numberOfChannels (b : AudioBuffer) : nat := length (channels b).

Definition supportedRate (ctx : AudioContext) (rate : Q) : bool :=
  Qle_bool (minSampleRate ctx) rate && Qle_bool rate (maxSampleRate ctx).

(** [ctx.createBuffer(numberOfChannels, length, sampleRate)]: both counts
    are [unsigned long]; a [NotSupportedError] if an argument is zero or
    outside its nominal range, else a silent buffer. *)
Definition createBuffer (ctx : AudioContext) (nChannels : nat)
    (len : number) (rate : Q) : outcome AudioBuffer :=
  let nc := unsigned_long (Num (inject_Z (Z.of_nat nChannels))) in
  let n := unsigned_long len in
  if (nc =? 0)%Z || (Z.of_nat (maxChannels ctx) <? nc)%Z || (n =? 0)%Z
     || negb (supportedRate ctx rate)
  then Throw NotSupportedError
  else Return {| sampleRate := rate;
                 frames := Z.to_nat n;
                 channels := replicate (Z.to_nat nc)
                               (replicate (Z.to_nat n) (Num 0)) |}.

(** [buffer.getChannelData(channel)]: the [Float32Array] of one channel,
    an [IndexSizeError] past the last channel. *)
Definition getChannelData (b : AudioBuffer) (channel : nat)
  : outcome (list number) :=
  match channels b !! channel with
  | Some d => Return d
  | None => Throw IndexSizeError
  end.

(** ** [decodeAudioData] (src/App.tsx, lines 18-35) *)

(** [dataInt16[k] / 32768.0]; past the end the read is [undefined] and the
    quotient NaN. *)
Definition sample (dataInt16 : list Z) (k : nat) : number :=
  match dataInt16 !! k with
  | Some v => number_div v 32768
  | None => NaN
  end.

(** The inner loop [for (let i = 0; i < frameCount; i++)].  [channelData]
    is a [Float32Array]: a store past its end is ignored. *)
Fixpoint frames_loop (fuel : nat) (dataInt16 : list Z)
    (numChannels channel : nat) (frameCount : number) (i : nat)
    (channelData : list number) : outcome (list number) :=
  match fuel with
  | O => OutOfFuel
  | S fuel' =>
      if number_lt i frameCount
      then frames_loop fuel' dataInt16 numChannels channel frameCount (S i)
             (<[i := sample dataInt16 (i * numChannels + channel)]> channelData)
      else Return channelData
  end.

(** The outer loop [for (let channel = 0; channel < numChannels; channel++)],
    by recursion on the channels left.  [getChannelData] returns a view of
    the storage of the buffer, so the stores of the inner loop land in the
    buffer. *)
Fixpoint channels_loop (todo : nat) (fuel : nat) (dataInt16 : list Z)
    (numChannels : nat) (frameCount : number) (channel : nat)
    (b : AudioBuffer) : outcome AudioBuffer :=
  match todo with
  | O => Return b
  | S todo' =>
      channelData ← getChannelData b channel;
      channelData' ← frames_loop fuel dataInt16 numChannels channel
                        frameCount 0 channelData;
      channels_loop todo' fuel dataInt16 numChannels frameCount (S channel)
        {| sampleRate := sampleRate b; frames := frames b;
           channels := <[channel := channelData']> (channels b) |}
  end.

Definition decodeAudioData (data : Uint8Array) (ctx : AudioContext)
    (rate : Q) (numChannels : nat) : outcome AudioBuffer :=
  dataInt16 ← Int16Array_new (buffer data);
  let frameCount :=
    number_div (Z.of_nat (length dataInt16)) (Z.of_nat numChannels) in
  b ← createBuffer ctx numChannels frameCount rate;
  channels_loop numChannels (S (length dataInt16)) dataInt16 numChannels
    frameCount 0 b.

(** ** [window.atob] *)

(** [atob] runs the forgiving-base64 decode of the WHATWG Infra standard
    and throws an [InvalidCharacterError] where that fails. *)

(** ASCII whitespace: TAB, LF, FF, CR and SPACE. *)
Definition is_ascii_whitespace (c : codeunit) : bool :=
  ((c =? 9) || (c =? 10) || (c =? 12) || (c =? 13) || (c =? 32))%N.

(** The value of a code unit of the base64 alphabet [A-Za-z0-9+/]. *)
Definition base64_value (c : codeunit) : option N :=
  (if (65 <=? c) && (c <=? 90) then Some (c - 65)
   else if (97 <=? c) && (c <=? 122) then Some (c - 71)
   else if (48 <=? c) && (c <=? 57) then Some (c + 4)
   else if c =? 43 then Some 62
   else if c =? 47 then Some 63
   else None)%N.

Definition ends_with_equals (data : jsstring) : bool :=
  match last data with
  | Some c => (c =? 61)%N
  | None => false
  end.

(** If the length is a multiple of 4, one or two trailing [=] are removed. *)
Definition strip_padding (data : jsstring) : jsstring :=
  if length data mod 4 =? 0 then
    if ends_with_equals data then
      let data1 := removelast data in
      if ends_with_equals data1 then removelast data1 else data1
    else data
  else data.

(** Six bits per code unit, most significant first: every 24 bits give three
    bytes; of 12 bits left over the last four are dropped, of 18 the last
    two. *)
Fixpoint sextets_to_bytes (v : list N) : list N :=
  match v with
  | a :: b :: c :: d :: rest =>
      let n := (((a * 64 + b) * 64 + c) * 64 + d)%N in
      (n / 65536)%N :: (n / 256 mod 256)%N :: (n mod 256)%N
        :: sextets_to_bytes rest
  | [a; b; c] =>
      let n := (((a * 64 + b) * 64 + c) / 4)%N in
      [(n / 256)%N; (n mod 256)%N]
  | [a; b] => [((a * 64 + b) / 16)%N]
  | _ => []
  end.

Definition forgiving_base64_decode (data : jsstring) : option (list N) :=
  let data := filter (λ c, is_ascii_whitespace c = false) data in
  let data := strip_padding data in
  if length data mod 4 =? 1 then None
  else v ← mapM base64_value data; Some (sextets_to_bytes v).

(** The result of [atob] is a binary string: one code unit per byte. *)
Definition atob (data : jsstring) : outcome jsstring :=
  match forgiving_base64_decode data with
  | Some bytes => Return bytes
  | None => Throw InvalidCharacterError
  end.

(** ** [decode] (src/App.tsx, lines 8-16) *)

(** [s.charCodeAt(i)], NaN ([None]) past the end. *)
Definition charCodeAt (s : jsstring) (i : nat) : option N := s !! i.

(** [for (let i = 0; i < len; i++) bytes[i] = binaryString.charCodeAt(i)],
    by recursion on the iterations left; a NaN is stored as 0. *)
Fixpoint decode_loop (todo i : nat) (binaryString : jsstring)
    (bytes : Uint8Array) : Uint8Array :=
  match todo with
  | O => bytes
  | S todo' =>
      decode_loop todo' (S i) binaryString
        (Uint8Array_set bytes i (default 0%N (charCodeAt binaryString i)))
  end.

Definition decode (base64 : jsstring) : outcome Uint8Array :=
  binaryString ← atob base64;
  let len := length binaryString in
  let bytes := Uint8Array_new len in
  Return (decode_loop len 0 binaryString bytes).

(** The standard base64 encoding (RFC 4648, section 4), which the
    specification takes as the inverse of [decode]: the alphabet
    [A-Za-z0-9+/], three bytes to four characters, [=] padding. *)
Definition base64_char (v : N) : codeunit :=
  (if v <? 26 then v + 65
   else if v <? 52 then v + 71
   else if v <? 62 then v - 4
   else if v =? 62 then 43
   else 47)%N.

Fixpoint base64_encode (bs : list byte) : jsstring :=
  match bs with
  | x :: y :: z :: rest =>
      let n := ((Byte.to_N x * 256 + Byte.to_N y) * 256 + Byte.to_N z)%N in
      base64_char (n / 262144) :: base64_char (n / 4096 mod 64)
        :: base64_char (n / 64 mod 64) :: base64_char (n mod 64)
        :: base64_encode rest
  | [x; y] =>
      let n := ((Byte.to_N x * 256 + Byte.to_N y) * 4)%N in
      [base64_char (n / 4096); base64_char (n / 64 mod 64);
       base64_char (n mod 64); 61%N]
  | [x] =>
      let n := (Byte.to_N x * 16)%N in
      [base64_char (n / 64); base64_char (n mod 64); 61%N; 61%N]
  | [] => []
  end.

(** The six-bit values of that encoding and its padding, apart. *)
Fixpoint encode_sextets (bs : list byte) : list N :=
  match bs with
  | x :: y :: z :: rest =>
      let n := ((Byte.to_N x * 256 + Byte.to_N y) * 256 + Byte.to_N z)%N in
      (n / 262144)%N :: (n / 4096 mod 64)%N :: (n / 64 mod 64)%N
        :: (n mod 64)%N :: encode_sextets rest
  | [x; y] =>
      let n := ((Byte.to_N x * 256 + Byte.to_N y) * 4)%N in
      [(n / 4096)%N; (n / 64 mod 64)%N; (n mod 64)%N]
  | [x] =>
      let n := (Byte.to_N x * 16)%N in
      [(n / 64)%N; (n mod 64)%N]
  | [] => []
  end.

Definition padding (bs : list byte) : jsstring :=
  replicate ((3 - length bs mod 3) mod 3) 61%N.

(** ** The SSML template (src/App.tsx, lines 104-109) *)

(** [rate] is a double: IEEE 754 binary64, as the standard library
    specifies it. *)
Definition float64 := spec_float.
Definition f64_of_Z (z : Z) : float64 := binary_normalize 53 1024 z 0 false.
Definition f64_mul : float64 -> float64 -> float64 := SFmul 53 1024.
Definition f64_div : float64 -> float64 -> float64 := SFdiv 53 1024.

(** The real value of a finite double. *)
Definition f64_value (x : float64) : option Q :=
  match x with
  | S754_zero _ => Some 0%Q
  | S754_finite s m e =>
      Some (inject_Z (cond_Zopp s (Zpos m)) * (2 ^ e))%Q
  | S754_infinity _ | S754_nan => None
  end.

(** An integral Number, as [Math.round] returns it (both zeros print as
    [0] and are not told apart); [Int z] is the Number nearest to [z], [z]
    itself below 2^53. *)
Inductive integral :=
| IntNaN
| IntInf (negative : bool)
| Int (z : Z).

(** [Math.round(x)]: the integer closest to [x], the larger one of two
    equally close: the floor of [x + 1/2]. *)
Definition Math_round (x : float64) : integral :=
  match x with
  | S754_zero _ => Int 0
  | S754_infinity s => IntInf s
  | S754_nan => IntNaN
  | S754_finite s m e =>
      let zm := cond_Zopp s (Zpos m) in
      Int (if 0 <=? e then zm * 2 ^ e
           else (2 * zm + 2 ^ (- e)) / 2 ^ (1 - e))%Z
  end.

(** The decimal digits of an integer, with [-] before a negative one. *)
Definition decimal (z : Z) : jsstring :=
  lit (DecimalString.NilZero.string_of_int (Z.to_int z)).

(** The integer part of a finite double (truncation toward zero). *)
Definition f64_trunc (x : float64) : Z :=
  match x with
  | S754_finite s m e =>
      if (0 <=? e)%Z then cond_Zopp s (Zpos m * 2 ^ e)
      else cond_Zopp s (Zpos m / 2 ^ (- e))
  | _ => 0
  end%Z.

(** The Number for an integer: the nearest double, an infinity past the
    largest one. *)
Definition Number_of_Z (z : Z) : integral :=
  match f64_of_Z z with
  | S754_infinity s => IntInf s
  | S754_finite _ _ _ as x => Int (f64_trunc x)
  | _ => Int 0
  end.

(** Whether the integer [c], read as a Number, is the Number of value
    [v]. *)
Definition reads_as (c v : Z) : bool :=
  match Number_of_Z c with
  | Int v' => (v' =? v)%Z
  | _ => false
  end.

(** The number of decimal digits of [v >= 1], less one. *)
Fixpoint digits10 (fuel : nat) (v : Z) : nat :=
  match fuel with
  | O => 0
  | S fuel' => if (v <? 10)%Z then 0 else S (digits10 fuel' (v / 10))
  end.

(** The digits of [Number::toString] for a positive integral Number [v]:
    the integer [s * 10 ^ e] that reads as [v] with the fewest significant
    digits, so with the largest [e]; of two such the one closer to [v], of
    two equally close the one with [s] even.  The multiples of [10 ^ e]
    next to [v] are tried from the [e] of the first digit of [v] down. *)
Fixpoint shortest_from (e : nat) (v : Z) : Z :=
  let p := (10 ^ Z.of_nat e)%Z in
  let lo := (v / p * p)%Z in
  let hi := (lo + p)%Z in
  match reads_as lo v, reads_as hi v with
  | true, true =>
      if (v - lo <? hi - v)%Z then lo
      else if (hi - v <? v - lo)%Z then hi
      else if Z.even (lo / p) then lo else hi
  | true, false => lo
  | false, true => hi
  | false, false =>
      match e with
      | O => v
      | S e' => shortest_from e' v
      end
  end.

Definition shortest (v : Z) : Z :=
  shortest_from (digits10 (Z.to_nat (Z.log2 v)) v) v.

Fixpoint strip_zeros (fuel : nat) (c : Z) : Z :=
  match fuel with
  | O => c
  | S fuel' => if (c mod 10 =? 0)%Z then strip_zeros fuel' (c / 10) else c
  end.

(** The exponent notation of an integer [c] of [n >= 22] digits: its first
    digit, after a point its further digits up to the last one that is not
    0, and [e+] with [n - 1]. *)
Definition exponential (c : Z) : jsstring :=
  let n := S (digits10 (Z.to_nat (Z.log2 c)) c) in
  match decimal (strip_zeros n c) with
  | d :: rest =>
      d :: match rest with [] => [] | _ => lit "." ++ rest end
        ++ lit "e+" ++ decimal (Z.of_nat n - 1)
  | [] => []
  end.

(** [`${x}`] for an integral Number, [Number::toString] with radix 10;
    [Int z] stands for the Number nearest to [z].  The digits are those of
    the shortest decimal that reads back as the same Number, in plain
    notation below 10^21 and with an exponent from there on.  (The
    conversion is total: the result is always [Some].) *)
Definition NumberToString (x : integral) : option jsstring :=
  match match x with Int z => Number_of_Z z | _ => x end with
  | IntNaN => Some (lit "NaN")
  | IntInf s => Some ((if s then lit "-" else []) ++ lit "Infinity")
  | Int v =>
      let c := shortest (Z.abs v) in
      Some ((if (v <? 0)%Z then lit "-" else [])
            ++ (if (c <? 10 ^ 21)%Z then decimal c else exponential c))
  end.

(** The double quote of the attribute values. *)
Definition dquote : jsstring := [34%N].

(** The body of the effect: [pitch] is an integer (the slider sets it
    through [parseInt]). *)
Definition newSsml (textToSpeak : jsstring) (rate : float64) (pitch : Z)
  : option jsstring :=
  r ← NumberToString (Math_round (f64_mul rate (f64_of_Z 100)));
  p ← NumberToString (Int pitch);
  let prosodyRate := r ++ lit "%" in
  let prosodyPitch := p ++ lit "st" in
  Some (lit "<speak><prosody rate=" ++ dquote ++ prosodyRate ++ dquote
        ++ lit " pitch=" ++ dquote ++ prosodyPitch ++ dquote ++ lit ">"
        ++ textToSpeak ++ lit "</prosody></speak>").

(** ** The rational Numbers of [decodeAudioData], against binary64 *)

(** The binary32 value nearest to a finite double: what a [Float32Array]
    keeps of it. *)
Definition f32_round (x : float64) : spec_float :=
  match x with
  | S754_finite s m e => binary_normalize 24 128 (cond_Zopp s (Zpos m)) e s
  | _ => x
  end.

(** The double [n / c] truncates to the integer quotient, and compares with
    every integer up to [n + 1] as the exact quotient does. *)
Definition quotient_agrees (n c : nat) : bool :=
  let x := f64_div (f64_of_Z (Z.of_nat n)) (f64_of_Z (Z.of_nat c)) in
  (f64_trunc x =? Z.of_nat (n / c))%Z
  && forallb (λ i, eqb (SFltb (f64_of_Z (Z.of_nat i)) x) (i * c <? n))
       (seq 0 (S (S n))).

(** The double [raw / 32768.0] is the exact quotient, and binary32 holds
    it unchanged. *)
Definition sample_exact (raw : Z) : bool :=
  let x := f64_div (f64_of_Z raw) (f64_of_Z 32768) in
  match f64_value x, f64_value (f32_round x) with
  | Some q, Some q32 => Qeq_bool q (raw # 32768) && Qeq_bool q32 q
  | _, _ => false
  end.

Fixpoint zrange (start : Z) (count : nat) : list Z :=
  match count with
  | O => []
  | S count' => start :: zrange (start + 1) count'
  end.

(** ** [synthesizeSpeech] (src/services/geminiService.ts) *)

(** The response of [generateContent], along the path the code reads:
    [candidates?.[0]?.content?.parts?.[0]?.inlineData?.data]. *)
Record Blob := mkBlob { data : option jsstring }.
Record Part := mkPart { inlineData : option Blob }.
Record Content := mkContent { parts : option (list Part) }.
Record Candidate := mkCandidate { content : option Content }.
Record GenerateContentResponse := mkResponse {
  candidates : option (list Candidate)
}.

(** What a rejected call throws: an [Error] instance with its message, or
    a value that is no [Error]. *)
Inductive rejection :=
| ErrorInstance (message : jsstring)
| OtherValue.

(** How the awaited [generateContent] call settles. *)
Inductive upstream :=
| Resolved (response : GenerateContentResponse)
| Rejected (error : rejection).

(** The optional chain: [None] is [undefined]. *)
Definition inlineAudio (response : GenerateContentResponse)
  : option jsstring :=
  cs ← candidates response;
  c ← cs !! 0;
  ct ← content c;
  ps ← parts ct;
  p ← ps !! 0;
  b ← inlineData p;
  data b.

(** The [try] block: the call, the read of the audio field, and the check
    [!base64Audio], which [undefined] and the empty string pass. *)
Definition synthesizeSpeech_try (r : upstream) : rejection + jsstring :=
  match r with
  | Rejected e => inl e
  | Resolved response =>
      match inlineAudio response with
      | None | Some [] =>
          inl (ErrorInstance (lit "API did not return audio data."))
      | Some (c :: s) => inr (c :: s)
      end
  end.

(** [generateContent] stands for the remote call: how it settles for a
    given SSML text and voice. *)
Definition synthesizeSpeech (generateContent : jsstring -> jsstring -> upstream)
    (ssml voiceName : jsstring) : outcome jsstring :=
  match synthesizeSpeech_try (generateContent ssml voiceName) with
  | inr base64Audio => Return base64Audio
  | inl (ErrorInstance message) =>
      Throw (JsError (lit "Failed to synthesize speech: " ++ message))
  | inl OtherValue =>
      Throw (JsError (lit "An unknown error occurred during speech synthesis."))
  end.

(** A response that carries [base64Audio] as its audio data. *)
Definition audio_response (base64Audio : jsstring) : upstream :=
  Resolved (mkResponse (Some [mkCandidate (Some (mkContent (Some
    [mkPart (Some (mkBlob (Some base64Audio)))])))])).

(** ** The playback controller (src/App.tsx, lines 90-161) *)

(** The state of the component (the [useState] cells and the two refs) and,
    below it, what the platform holds: the source nodes created so far
    with their buffers, the sources that are sounding (started, neither
    stopped nor played out), the sources that stopped and whose [ended]
    event is still to be dispatched, and the invocations of
    [handleSynthesizeAndPlay] suspended at [await synthesizeSpeech], with
    the arguments of the call.  State updates take effect at once: every
    handler runs against the latest render. *)
Record AppState := mkAppState {
  ssml : jsstring;
  selectedVoice : jsstring;
  isLoading : bool;
  isPlaying : bool;
  error : option jsstring;
  audioContextRef : option AudioContext;
  audioSourceRef : option nat;
  sources : list AudioBuffer;
  sounding : list nat;
  endedQueue : list nat;
  awaiting : list (jsstring * jsstring)
}.

Definition setIsLoading (v : bool) (st : AppState) : AppState :=
  mkAppState (ssml st) (selectedVoice st) v (isPlaying st) (error st)
    (audioContextRef st) (audioSourceRef st) (sources st) (sounding st)
    (endedQueue st) (awaiting st).

Definition setIsPlaying (v : bool) (st : AppState) : AppState :=
  mkAppState (ssml st) (selectedVoice st) (isLoading st) v (error st)
    (audioContextRef st) (audioSourceRef st) (sources st) (sounding st)
    (endedQueue st) (awaiting st).

Definition setError (v : option jsstring) (st : AppState) : AppState :=
  mkAppState (ssml st) (selectedVoice st) (isLoading st) (isPlaying st) v
    (audioContextRef st) (audioSourceRef st) (sources st) (sounding st)
    (endedQueue st) (awaiting st).

Definition setAudioContextRef (v : option AudioContext) (st : AppState)
  : AppState :=
  mkAppState (ssml st) (selectedVoice st) (isLoading st) (isPlaying st)
    (error st) v (audioSourceRef st) (sources st) (sounding st)
    (endedQueue st) (awaiting st).

Definition setAudioSourceRef (v : option nat) (st : AppState) : AppState :=
  mkAppState (ssml st) (selectedVoice st) (isLoading st) (isPlaying st)
    (error st) (audioContextRef st) v (sources st) (sounding st)
    (endedQueue st) (awaiting st).

Definition setAwaiting (v : list (jsstring * jsstring)) (st : AppState)
  : AppState :=
  mkAppState (ssml st) (selectedVoice st) (isLoading st) (isPlaying st)
    (error st) (audioContextRef st) (audioSourceRef st) (sources st)
    (sounding st) (endedQueue st) v.

(** The initial render: nothing loaded, nothing playing. *)
Definition initialState (text voice : jsstring) : AppState :=
  mkAppState text voice false false None None None [] [] [] [].

(** The idle state of the controller, as the component records it. *)
Definition Idle (st : AppState) : Prop :=
  isPlaying st = false /\ audioSourceRef st = None.

Definition remove_source (s : nat) (l : list nat) : list nat :=
  filter (λ x, x ≠ s) l.

(** [source.stop()] on a started source: a sounding source falls silent and
    its [ended] event is queued; on a source that stopped before, nothing
    changes.  ([source.disconnect()] changes nothing this model holds.) *)
Definition source_stop (s : nat) (st : AppState) : AppState :=
  if bool_decide (s ∈ sounding st)
  then mkAppState (ssml st) (selectedVoice st) (isLoading st) (isPlaying st)
         (error st) (audioContextRef st) (audioSourceRef st) (sources st)
         (remove_source s (sounding st)) (endedQueue st ++ [s]) (awaiting st)
  else st.

(** [createBufferSource], [source.buffer = audioBuffer], [connect] and
    [source.start()]: a new source, sounding at once; its id is returned. *)
Definition source_start (b : AudioBuffer) (st : AppState) : nat * AppState :=
  let s := length (sources st) in
  (s, mkAppState (ssml st) (selectedVoice st) (isLoading st) (isPlaying st)
        (error st) (audioContextRef st) (audioSourceRef st)
        (sources st ++ [b]) (sounding st ++ [s]) (endedQueue st)
        (awaiting st)).

Definition stopPlayback (st : AppState) : AppState :=
  match audioSourceRef st with
  | Some s =>
      setIsPlaying false (setAudioSourceRef None (source_stop s st))
  | None => st
  end.

(** The handler of [source.onended]; it is the same for every source. *)
Definition onended (st : AppState) : AppState :=
  setAudioSourceRef None (setIsPlaying false st).

Section Controller.

(** The context [new AudioContext({ sampleRate: 24000 })] gives on this
    platform, and the message the platform puts in its exceptions. *)
Variable device : AudioContext.
Variable platform_message : exn -> jsstring.

Definition exn_message (e : exn) : jsstring :=
  match e with
  | JsError m => m
  | _ => platform_message e
  end.

(** [handleSynthesizeAndPlay] up to [await synthesizeSpeech(...)]. *)
Definition handleSynthesizeAndPlay (st : AppState) : AppState :=
  if isLoading st then st
  else
    let st := stopPlayback st in
    let st := setIsLoading true st in
    let st := setError None st in
    setAwaiting (awaiting st ++ [(ssml st, selectedVoice st)]) st.

(** The [catch] and [finally] blocks. *)
Definition handle_catch (err : exn) (st : AppState) : AppState :=
  let message :=
    match exn_message err with
    | [] => lit "An unexpected error occurred."
    | m => m
    end in
  setIsLoading false (setIsPlaying false (setError (Some message) st)).

(** From the context on: decode, start the source, record it. *)
Definition play_audio (base64Audio : jsstring) (st : AppState) : AppState :=
  let st :=
    match audioContextRef st with
    | Some _ => st
    | None => setAudioContextRef (Some device) st
    end in
  let ctx := default device (audioContextRef st) in
  match bytes ← decode base64Audio; decodeAudioData bytes ctx 24000%Q 1 with
  | Return audioBuffer =>
      let '(source, st) := source_start audioBuffer st in
      let st := setAudioSourceRef (Some source) st in
      let st := setIsPlaying true st in
      setIsLoading false st
  | Throw err => handle_catch err st
  | OutOfFuel => st
  end.

(** The rest of [handleSynthesizeAndPlay], run when the awaited call
    settles with [r]; no event is handled between its steps. *)
Definition resume (r : upstream) (st : AppState) : AppState :=
  match awaiting st with
  | [] => st
  | (text, voice) :: rest =>
      let st := setAwaiting rest st in
      match synthesizeSpeech (λ _ _, r) text voice with
      | Return base64Audio => play_audio base64Audio st
      | Throw err => handle_catch err st
      | OutOfFuel => st
      end
  end.

(** What can happen to the component: a click on the button (disabled
    while loading, [stopPlayback] while playing, else
    [handleSynthesizeAndPlay]), a direct call of either handler, the
    awaited call settling, a source playing to the end of its buffer, and
    the platform dispatching the [ended] event of a stopped source. *)
Inductive event :=
| Click
| Play
| Stop
| Settle (r : upstream)
| Finish (s : nat)
| Ended (s : nat).

Definition step (st : AppState) (e : event) : AppState :=
  match e with
  | Click =>
      if isLoading st then st
      else if isPlaying st then stopPlayback st
      else handleSynthesizeAndPlay st
  | Play => handleSynthesizeAndPlay st
  | Stop => stopPlayback st
  | Settle r => resume r st
  | Finish s => source_stop s st
  | Ended s =>
      if bool_decide (s ∈ endedQueue st)
      then onended (mkAppState (ssml st) (selectedVoice st) (isLoading st)
                      (isPlaying st) (error st) (audioContextRef st)
                      (audioSourceRef st) (sources st) (sounding st)
                      (remove_source s (endedQueue st)) (awaiting st))
      else st
  end.

Definition run (st : AppState) (es : list event) : AppState :=
  foldl step st es.

(** The [ended] event of every stopped source is dispatched before the
    awaited call settles. *)
Definition prompt (st : AppState) (e : event) : Prop :=
  match e with
  | Settle _ => endedQueue st = []
  | _ => True
  end.

Fixpoint prompt_run (st : AppState) (es : list event) : Prop :=
  match es with
  | [] => True
  | e :: es' => prompt st e /\ prompt_run (step st e) es'
  end.

End Controller.

(** The attempt [resume] runs throws [err]: in [synthesizeSpeech] (a
    network or synthesis error), in [decode] (a decode error) or in
    [decodeAudioData] (a framing error or a rejected buffer). *)
Definition attempt_fails (text voice : jsstring) (r : upstream)
    (ctx : AudioContext) (err : exn) : Prop :=
  synthesizeSpeech (λ _ _, r) text voice = Throw err
  \/ exists base64Audio,
       synthesizeSpeech (λ _ _, r) text voice = Return base64Audio
       /\ (decode base64Audio = Throw err
           \/ exists bytes,
                decode base64Audio = Return bytes
                /\ decodeAudioData bytes ctx 24000%Q 1 = Throw err).

(** One session at most, and it is the one the ref names; while a session
    sounds no [ended] event is pending; a suspended invocation implies the
    loading flag and a cleared ref; invocations do not overlap. *)
Record single_session (st : AppState) : Prop := {
  ss_sounding :
    sounding st = []
    \/ exists s, sounding st = [s] /\ audioSourceRef st = Some s;
  ss_queue : sounding st <> [] -> endedQueue st = [];
  ss_awaiting :
    awaiting st <> [] -> isLoading st = true /\ audioSourceRef st = None;
  ss_one : length (awaiting st) <= 1
}.

(** While a request is pending the loading flag is set and the ref is
    clear; requests do not overlap; the playing flag implies a ref. *)
Record pending_request (st : AppState) : Prop := {
  pr_awaiting :
    awaiting st <> [] -> isLoading st = true /\ audioSourceRef st = None;
  pr_one : length (awaiting st) <= 1;
  pr_playing : isPlaying st = true -> is_Some (audioSourceRef st)
}.

(** ** The invariant of the controller *)

(** What the three faces of the button rest on: the loading flag stands
    for a suspended invocation, of which there is one at most; the playing
    flag stands for a source in the ref; loading excludes a source in the
    ref; an error message is there only when neither loading nor
    playing. *)
Record controller_consistent (st : AppState) : Prop := {
  cc_loading : isLoading st = true <-> awaiting st <> [];
  cc_one : length (awaiting st) <= 1;
  cc_playing : isPlaying st = true <-> is_Some (audioSourceRef st);
  cc_ref : isLoading st = true -> audioSourceRef st = None;
  cc_error :
    is_Some (error st) -> isLoading st = false /\ isPlaying st = false
}.

(** ** The voices (src/constants.ts) *)

(** The shape of the entries of [VOICE_OPTIONS], as its literals have it. *)
Record VoiceOption := mkVoiceOption {
  value : list N;
  label : list N
}.

Definition VOICE_OPTIONS : list VoiceOption :=
  [ mkVoiceOption (lit "Kore") (lit "Kore (Female)");
    mkVoiceOption (lit "Puck") (lit "Puck (Male)");
    mkVoiceOption (lit "Charon") (lit "Charon (Male)");
    mkVoiceOption (lit "Fenrir") (lit "Fenrir (Male)");
    mkVoiceOption (lit "Zephyr") (lit "Zephyr (Female)") ].

(** The initial [selectedVoice]: [VOICE_OPTIONS[0].value], a [TypeError]
    ([None]) on an empty table. *)
Definition initialVoice : option (list N) :=
  value <$> VOICE_OPTIONS !! 0.

(** ** The pitch slider (src/App.tsx, lines 225-233) *)

(** White space and line terminators of ECMAScript. *)
Definition is_js_whitespace (c : N) : bool :=
  ((c =? 9) || (c =? 10) || (c =? 11) || (c =? 12) || (c =? 13)
   || (c =? 32) || (c =? 160) || (c =? 5760)
   || ((8192 <=? c) && (c <=? 8202)) || (c =? 8232) || (c =? 8233)
   || (c =? 8239) || (c =? 8287) || (c =? 12288) || (c =? 65279))%N.

Fixpoint trim_start (s : list N) : list N :=
  match s with
  | c :: s' => if is_js_whitespace c then trim_start s' else s
  | [] => []
  end.

Definition digit_value (c : N) : option Z :=
  if ((48 <=? c) && (c <=? 57))%N then Some (Z.of_N (c - 48)) else None.

(** The decimal digits a string starts with: their value and their
    number. *)
Fixpoint leading_digits (s : list N) (acc : Z) (count : nat) : Z * nat :=
  match s with
  | c :: s' =>
      match digit_value c with
      | Some d => leading_digits s' (10 * acc + d)%Z (S count)
      | None => (acc, count)
      end
  | [] => (acc, count)
  end.

(** [parseInt(string, 10)]: leading white space is skipped, then a sign,
    then the digits are read as far as they go; NaN without a digit.  (Past
    20 significant digits an implementation may read zeros; here the
    digits are read as they are.) *)
Definition parseInt10 (string : list N) : integral :=
  let s := trim_start string in
  let sign : Z :=
    match s with
    | c :: _ => if (c =? 45)%N then (-1)%Z else 1%Z
    | [] => 1%Z
    end in
  let s :=
    match s with
    | c :: s' => if ((c =? 43) || (c =? 45))%N then s' else s
    | [] => []
    end in
  let '(mathInt, count) := leading_digits s 0 0 in
  if count =? 0 then IntNaN else Number_of_Z (sign * mathInt).

(** [onChange] of the pitch slider: [setPitch(parseInt(e.target.value, 10))];
    the value of a range input with integer bounds and step is the decimal
    string of an integer. *)
Definition pitch_onChange (target_value : list N) : integral :=
  parseInt10 target_value.

(** ** Sample payloads *)

(** The samples 16384 and -16384, low byte first. *)
Definition two_samples : Uint8Array :=
  mkUint8Array [x00; x40; x00; xc0] 0 4.

Definition five_samples : Uint8Array :=
  mkUint8Array [x01; x00; x02; x00; x03; x00; x04; x00; x05; x00] 0 10.

Definition one_sample : Uint8Array := mkUint8Array [x00; x40] 0 2.

Definition three_bytes : Uint8Array := mkUint8Array [x00; x40; x00] 0 3.

(** The samples 16384 and -16384 again, as a view of four bytes from the
    third byte of a buffer of six: what [bytes.subarray(2)] gives. *)
Definition offset_samples : Uint8Array :=
  mkUint8Array [x00; x00; x00; x40; x00; xc0] 2 4.

(** A view of three bytes into a buffer of four. *)
Definition odd_view : Uint8Array := mkUint8Array [x00; x40; x00; xc0] 1 3.

(** Thirty-three samples of silence. *)
Definition silence_33 : Uint8Array := mkUint8Array (replicate 66 x00) 0 66.

(** The component while its first request is pending. *)
Definition loading_state : AppState :=
  mkAppState (lit "<speak/>") (lit "Kore") true false None None None [] [] []
    [(lit "<speak/>", lit "Kore")].

(** The component while its first source plays. *)
Definition playing_state : AppState :=
  mkAppState (lit "<speak/>") (lit "Kore") false true None
    (Some standard_context) (Some 0)
    [{| sampleRate := 24000%Q; frames := 2;
        channels := [[Num (1 # 2); Num (-1 # 2)]] |}] [0] [] [].

(** * Verification *)

(** Linear arithmetic with division and remainder by constants. *)
Ltac div_lia := zify; Z.to_euclidean_division_equations; lia.

(** ** The rational model against binary64 *)

Lemma int16_le_range (lo hi : byte) :
  (-32768 <= int16_le lo hi <= 32767)%Z.
Proof.
  unfold int16_le.
  pose proof (Byte.to_N_bounded lo). pose proof (Byte.to_N_bounded hi).
  destruct (Z.ltb_spec (Z.of_N (Byte.to_N lo) + 256 * Z.of_N (Byte.to_N hi))
              32768); lia.
Qed.

Lemma In_zrange (z start : Z) (count : nat) :
  (start <= z < start + Z.of_nat count)%Z -> In z (zrange start count).
Proof.
  revert start. induction count as [|count IH]; intros start Hz; [lia|].
  cbn [zrange]. destruct (Z.eq_dec start z) as [->|Hne]; [now left|].
  right. apply IH. lia.
Qed.

Lemma sample_exact_all :
  forallb sample_exact (zrange (-32768) (Z.to_nat 65536)) = true.
Proof. vm_compute. reflexivity. Qed.

(** Every 16-bit sample over 32768 is computed exactly in binary64 and
    stored exactly in binary32. *)
Lemma sample_exact_int16 (raw : Z) :
  (-32768 <= raw <= 32767)%Z -> sample_exact raw = true.
Proof.
  intros Hraw. pose proof sample_exact_all as H.
  rewrite forallb_forall in H. apply H. apply In_zrange. lia.
Qed.

(** On every length below 100 and every channel count up to 16, the double
    quotient truncates and compares as the exact one. *)
Lemma quotient_agrees_small :
  forallb (λ c, forallb (λ n, quotient_agrees n c) (seq 0 100)) (seq 1 16)
  = true.
Proof. vm_compute. reflexivity. Qed.

(** ** Numbers and typed arrays *)

Lemma int16_elements_length (bs : list byte) :
  length (int16_elements bs) = length bs / 2.
Proof.
  induction bs as [bs IH] using (induction_ltof1 _ (@length byte)).
  unfold ltof in IH.
  destruct bs as [|lo [|hi rest]]; [done | done |].
  cbn [int16_elements length]. rewrite IH by (cbn; lia).
  change (S (S (length rest))) with (1 * 2 + length rest) at 1.
  rewrite Nat.add_comm. rewrite Nat.div_add by lia. lia.
Qed.

Lemma Q_div_le_int (a b i : Z) :
  (0 < b)%Z -> (inject_Z a / inject_Z b <= inject_Z i)%Q <-> (a <= i * b)%Z.
Proof.
  intros Hb. split.
  - intros H. apply (Qmult_le_r _ _ (inject_Z b)) in H.
    + rewrite Qmult_comm, Qmult_div_r in H.
      * rewrite <- inject_Z_mult, <- Zle_Qle in H. exact H.
      * intros E. apply (inject_Z_injective b 0) in E. lia.
    + change 0%Q with (inject_Z 0). rewrite <- Zlt_Qlt. exact Hb.
  - intros H. apply Qle_shift_div_r.
    + change 0%Q with (inject_Z 0). rewrite <- Zlt_Qlt. exact Hb.
    + rewrite <- inject_Z_mult, <- Zle_Qle. exact H.
Qed.

Lemma number_lt_div (i n c : nat) :
  0 < c ->
  number_lt i (number_div (Z.of_nat n) (Z.of_nat c)) = (i * c <? n).
Proof.
  intros Hc. unfold number_div, number_lt.
  destruct (Z.eqb_spec (Z.of_nat c) 0) as [E|_]; [lia|].
  destruct (Nat.ltb_spec (i * c) n) as [Hlt|Hge].
  - apply negb_true_iff. apply not_true_is_false. intros H.
    apply Qle_bool_iff in H. rewrite Qred_correct in H.
    apply (proj1 (Q_div_le_int (Z.of_nat n) (Z.of_nat c) (Z.of_nat i)
                    ltac:(lia))) in H. lia.
  - apply negb_false_iff. apply Qle_bool_iff. rewrite Qred_correct.
    apply (proj2 (Q_div_le_int (Z.of_nat n) (Z.of_nat c) (Z.of_nat i)
                    ltac:(lia))). lia.
Qed.

Lemma unsigned_long_div (n c : nat) :
  0 < c -> (Z.of_nat (n / c) < 2 ^ 32)%Z ->
  unsigned_long (number_div (Z.of_nat n) (Z.of_nat c)) = Z.of_nat (n / c).
Proof.
  intros Hc Hlt. unfold number_div, unsigned_long.
  destruct (Z.eqb_spec (Z.of_nat c) 0) as [E|_]; [lia|].
  assert (Hq : (0 <= inject_Z (Z.of_nat n) / inject_Z (Z.of_nat c))%Q).
  { apply Qle_shift_div_l.
    - change 0%Q with (inject_Z 0). rewrite <- Zlt_Qlt. lia.
    - rewrite Qmult_0_l. change 0%Q with (inject_Z 0).
      rewrite <- Zle_Qle. lia. }
  replace (Qle_bool 0 _) with true.
  2:{ symmetry. apply Qle_bool_iff. now rewrite Qred_correct. }
  rewrite (Qfloor_comp _ _ (Qred_correct _)).
  rewrite <- Zdiv_Qdiv, <- Nat2Z.inj_div.
  apply Z.mod_small. lia.
Qed.

Lemma unsigned_long_nat (c : nat) :
  (Z.of_nat c < 2 ^ 32)%Z ->
  unsigned_long (Num (inject_Z (Z.of_nat c))) = Z.of_nat c.
Proof.
  intros Hlt. unfold unsigned_long.
  replace (Qle_bool 0 _) with true.
  2:{ symmetry. apply Qle_bool_iff. change 0%Q with (inject_Z 0).
      rewrite <- Zle_Qle. lia. }
  rewrite Qfloor_Z. apply Z.mod_small. lia.
Qed.

Lemma int16_elements_lookup (bs : list byte) (k : nat) (lo hi : byte) :
  bs !! (2 * k) = Some lo -> bs !! (2 * k + 1) = Some hi ->
  int16_elements bs !! k = Some (int16_le lo hi).
Proof.
  revert bs. induction k as [|k IH]; intros bs Hlo Hhi.
  - destruct bs as [|b0 [|b1 rest]]; simplify_eq/=. done.
  - destruct bs as [|b0 [|b1 rest]]; [done | done |].
    replace (2 * S k) with (S (S (2 * k))) in * by lia.
    cbn [int16_elements]. rewrite lookup_cons_ne_0 by lia. cbn [pred].
    apply IH; [exact Hlo | exact Hhi].
Qed.

Section Loops.
Variables (dataInt16 : list Z) (numChannels : nat).
Hypothesis Hc : 0 < numChannels.

Let n := length dataInt16.
Let frameCount := number_div (Z.of_nat n) (Z.of_nat numChannels).

Lemma frames_loop_spec (channel fuel i : nat) (cd : list number) :
  n <= (i + fuel) * numChannels ->
  exists cd',
    frames_loop (S fuel) dataInt16 numChannels channel frameCount i cd
      = Return cd'
    /\ length cd' = length cd
    /\ forall j,
         cd' !! j =
           if bool_decide (i <= j /\ j * numChannels < n /\ j < length cd)
           then Some (sample dataInt16 (j * numChannels + channel))
           else cd !! j.
Proof.
  revert i cd. induction fuel as [|fuel IH]; intros i cd Hfuel.
  - cbn [frames_loop]. unfold frameCount.
    rewrite number_lt_div by exact Hc.
    destruct (Nat.ltb_spec (i * numChannels) n) as [Hlt|Hge]; [lia|].
    exists cd. split; [done|]. split; [done|]. intros j.
    case_bool_decide as Hj; [|done]. destruct Hj as (Hij & Hjn & _).
    assert (i * numChannels <= j * numChannels)
      by (apply Nat.mul_le_mono_r; lia).
    lia.
  - cbn [frames_loop]. unfold frameCount at 1.
    rewrite number_lt_div by exact Hc.
    destruct (Nat.ltb_spec (i * numChannels) n) as [Hlt|Hge].
    + destruct (IH (S i)
                  (<[i := sample dataInt16 (i * numChannels + channel)]> cd))
        as (cd' & Hrun & Hlen & Hget); [lia|].
      exists cd'. split; [exact Hrun|]. rewrite length_insert in Hlen, Hget.
      split; [exact Hlen|]. intros j. rewrite Hget.
      destruct (decide (j = i)) as [->|Hne].
      * rewrite bool_decide_eq_false_2 by lia.
        case_bool_decide as Hi.
        -- apply list_lookup_insert_eq. lia.
        -- rewrite list_insert_ge by lia. done.
      * rewrite list_lookup_insert_ne by done.
        repeat case_bool_decide; try done; lia.
    + exists cd. split; [done|]. split; [done|]. intros j.
      case_bool_decide as Hj; [|done]. destruct Hj as (Hij & Hjn & _).
      assert (i * numChannels <= j * numChannels)
        by (apply Nat.mul_le_mono_r; lia).
      lia.
Qed.

Lemma channels_loop_spec (L todo channel : nat) (b : AudioBuffer) :
  channel + todo = numChannels ->
  length (channels b) = numChannels ->
  Forall (λ d, length d = L) (channels b) ->
  exists b',
    channels_loop todo (S n) dataInt16 numChannels frameCount channel b
      = Return b'
    /\ sampleRate b' = sampleRate b
    /\ frames b' = frames b
    /\ length (channels b') = numChannels
    /\ Forall (λ d, length d = L) (channels b')
    /\ (forall k, k < channel -> channels b' !! k = channels b !! k)
    /\ (forall k d j, channel <= k -> channels b' !! k = Some d ->
          j < L -> j * numChannels < n ->
          d !! j = Some (sample dataInt16 (j * numChannels + k))).
Proof.
  revert channel b.
  induction todo as [|todo IH]; intros channel b Hsum Hlen Hall.
  - exists b. cbn [channels_loop]. repeat split; try done.
    intros k d j Hk Hd _ _. apply lookup_lt_Some in Hd. lia.
  - cbn [channels_loop]. unfold getChannelData.
    destruct (lookup_lt_is_Some_2 (channels b) channel ltac:(lia)) as [cd Hcd].
    rewrite Hcd. cbn [mbind outcome_bind].
    destruct (frames_loop_spec channel n 0 cd) as (cd' & Hrun & Hlen' & Hget).
    { assert (n * 1 <= n * numChannels) by (apply Nat.mul_le_mono_l; lia).
      lia. }
    fold n frameCount. rewrite Hrun.
    assert (HcdL : length cd = L).
    { eapply Forall_lookup_1 in Hall; [exact Hall | exact Hcd]. }
    set (b1 := {| sampleRate := sampleRate b; frames := frames b;
                  channels := <[channel := cd']> (channels b) |}).
    destruct (IH (S channel) b1)
      as (b' & Hb' & Hsr & Hfr & Hn & HL & Hlow & Hhigh).
    { lia. }
    { cbn. rewrite length_insert. exact Hlen. }
    { cbn. apply Forall_insert; [exact Hall | congruence]. }
    exists b'. split; [exact Hb'|]. split; [exact Hsr|]. split; [exact Hfr|].
    split; [exact Hn|]. split; [exact HL|]. split.
    + intros k Hk. rewrite Hlow by lia. cbn.
      apply list_lookup_insert_ne. lia.
    + intros k d j Hk Hd Hj Hjn.
      destruct (decide (k = channel)) as [->|Hne].
      * rewrite Hlow in Hd by lia. cbn in Hd.
        rewrite list_lookup_insert_eq in Hd by lia. simplify_eq.
        rewrite Hget. rewrite bool_decide_eq_true_2; [done|]. lia.
      * apply Hhigh; [lia | exact Hd | exact Hj | exact Hjn].
Qed.
End Loops.

Lemma Int16Array_new_even (buf : list byte) :
  length buf mod 2 = 0 -> Int16Array_new buf = Return (int16_elements buf).
Proof. intros H. unfold Int16Array_new. now rewrite H. Qed.

Lemma createBuffer_ok (ctx : AudioContext) (c n : nat) (rate : Q) :
  1 <= c <= maxChannels ctx -> (Z.of_nat c < 2 ^ 32)%Z ->
  supportedRate ctx rate = true ->
  1 <= n / c -> (Z.of_nat (n / c) < 2 ^ 32)%Z ->
  createBuffer ctx c (number_div (Z.of_nat n) (Z.of_nat c)) rate
  = Return {| sampleRate := rate; frames := n / c;
              channels := replicate c (replicate (n / c) (Num 0)) |}.
Proof.
  intros Hc Hc32 Hrate Hq Hq32. unfold createBuffer.
  rewrite unsigned_long_nat by exact Hc32.
  rewrite unsigned_long_div by (lia || exact Hq32).
  rewrite Hrate. cbn [negb orb].
  destruct (Z.eqb_spec (Z.of_nat c) 0); [lia|].
  destruct (Z.ltb_spec (Z.of_nat (maxChannels ctx)) (Z.of_nat c)); [lia|].
  destruct (Z.eqb_spec (Z.of_nat (n / c)) 0); [lia|].
  cbn [orb]. now rewrite !Nat2Z.id.
Qed.

Lemma decodeAudioData_returns (data : Uint8Array) (ctx : AudioContext)
    (rate : Q) (c : nat) :
  let n := length (buffer data) / 2 in
  length (buffer data) mod 2 = 0 ->
  1 <= c <= maxChannels ctx -> (Z.of_nat c < 2 ^ 32)%Z ->
  supportedRate ctx rate = true ->
  1 <= n / c -> (Z.of_nat (n / c) < 2 ^ 32)%Z ->
  exists b,
    decodeAudioData data ctx rate c = Return b
    /\ sampleRate b = rate
    /\ frames b = n / c
    /\ length (channels b) = c
    /\ Forall (λ d, length d = n / c) (channels b)
    /\ (forall k d j, channels b !! k = Some d -> j < n / c ->
          d !! j = Some (sample (int16_elements (buffer data)) (j * c + k))).
Proof.
  intros n Heven Hc Hc32 Hrate Hq Hq32. unfold decodeAudioData.
  rewrite Int16Array_new_even by exact Heven. cbn [mbind outcome_bind].
  rewrite int16_elements_length. fold n.
  rewrite createBuffer_ok by assumption. cbn [mbind outcome_bind].
  pose proof (channels_loop_spec (int16_elements (buffer data)) c
                ltac:(lia) (n / c) c 0
                {| sampleRate := rate; frames := n / c;
                   channels := replicate c (replicate (n / c) (Num 0)) |}) as H.
  rewrite int16_elements_length in H. fold n in H.
  destruct H as (b & Hrun & Hsr & Hfr & Hlen & HL & _ & Hval).
  - lia.
  - cbn. apply length_replicate.
  - cbn. apply Forall_replicate. apply length_replicate.
  - exists b. split; [exact Hrun|]. split; [exact Hsr|]. split; [exact Hfr|].
    split; [exact Hlen|]. split; [exact HL|].
    intros k d j Hd Hj. apply Hval; [lia | exact Hd | exact Hj |].
    assert (S j * c <= n / c * c) by (apply Nat.mul_le_mono_r; lia).
    pose proof (Nat.div_mod_eq n c). nia.
Qed.

(** A view of its whole buffer holds the bytes of the buffer. *)
Lemma payload_whole (a : Uint8Array) :
  whole_buffer a -> payload a = buffer a.
Proof.
  intros [Ho Hl]. unfold payload. rewrite Ho, Hl, drop_0.
  now apply take_ge.
Qed.

(** C1, as the code has it.  For a payload that views its whole buffer and
    holds [n] whole 16-bit samples, a channel count [c] (at least 1, below
    2^32) and a sample rate that the context supports, and at least one
    whole frame ([1 <= n / c], below 2^32), [decodeAudioData] returns a
    buffer of exactly [c] channel arrays, each of length [n / c] rounded
    down: the samples of an incomplete last frame are dropped without an
    error. *)
Theorem decodeAudioData_channel_arrays (data : Uint8Array)
    (ctx : AudioContext) (rate : Q) (c : nat) :
  let n := length (payload data) / 2 in
  whole_buffer data ->
  length (payload data) mod 2 = 0 ->
  1 <= c <= maxChannels ctx -> (Z.of_nat c < 2 ^ 32)%Z ->
  supportedRate ctx rate = true ->
  1 <= n / c -> (Z.of_nat (n / c) < 2 ^ 32)%Z ->
  exists b,
    decodeAudioData data ctx rate c = Return b
    /\ numberOfChannels b = c
    /\ Forall (λ d, length d = n / c) (channels b).
Proof.
  intros n Hwhole. subst n. rewrite (payload_whole data Hwhole).
  intros Heven Hc Hc32 Hrate Hq Hq32.
  destruct (decodeAudioData_returns data ctx rate c)
    as (b & Hrun & _ & _ & Hlen & HL & _);
    [ exact Heven | exact Hc | exact Hc32 | exact Hrate | exact Hq
    | exact Hq32 |].
  exists b. auto.
Qed.

Lemma decodeAudioData_channel_arrays_witness :
  exists b,
    decodeAudioData five_samples standard_context 24000%Q 2 = Return b
    /\ numberOfChannels b = 2
    /\ Forall (λ d, length d = length (payload five_samples) / 2 / 2)
         (channels b).
Proof.
  apply (decodeAudioData_channel_arrays five_samples standard_context
           24000%Q 2); [split; reflexivity | ..]; cbn; try reflexivity; lia.
Defined.

(** C1 as stated fails in four ways.  Where the samples do not fill one
    frame: one sample for two channels gives a frame count of 0.5, which
    [createBuffer] reads as 0 and rejects.  Where the payload is a view of
    part of a buffer: the code reads the buffer, so two samples at an
    offset in a buffer of three give, on one channel, an array of length 3,
    not 2.  Where the context does not offer the channels: 33 samples for
    33 channels are rejected by a context of 32.  And where the context
    does not offer the sample rate. *)
Lemma decodeAudioData_channel_arrays_fails :
  (whole_buffer one_sample /\ length (payload one_sample) mod 2 = 0
   /\ 1 <= 2
   /\ decodeAudioData one_sample standard_context 24000%Q 2
      = Throw NotSupportedError
   /\ ~ (exists b,
           decodeAudioData one_sample standard_context 24000%Q 2 = Return b
           /\ numberOfChannels b = 2
           /\ Forall (λ d, length d = length (payload one_sample) / 2 / 2)
                (channels b)))
  /\ (length (payload offset_samples) / 2 = 2 /\ 1 <= 1
      /\ decodeAudioData offset_samples standard_context 24000%Q 1
         = Return {| sampleRate := 24000%Q; frames := 3;
                     channels := [[Num 0; Num (1 # 2); Num (-1 # 2)]] |}
      /\ ~ (exists b,
              decodeAudioData offset_samples standard_context 24000%Q 1
              = Return b
              /\ numberOfChannels b = 1
              /\ Forall
                   (λ d, length d = length (payload offset_samples) / 2 / 1)
                   (channels b)))
  /\ (whole_buffer silence_33 /\ length (payload silence_33) / 2 = 33
      /\ 1 <= 33
      /\ decodeAudioData silence_33 standard_context 24000%Q 33
         = Throw NotSupportedError)
  /\ (whole_buffer five_samples /\ length (payload five_samples) / 2 = 5
      /\ 1 <= 1
      /\ decodeAudioData five_samples standard_context 1%Q 1
         = Throw NotSupportedError).
Proof.
  split; [|split; [|split]].
  - split; [split; reflexivity|]. split; [reflexivity|]. split; [lia|].
    split; [reflexivity|]. intros (b & Hb & _). discriminate Hb.
  - split; [reflexivity|]. split; [lia|]. split; [reflexivity|].
    intros (b & Hb & _ & HL).
    assert (E : channels b = [[Num 0; Num (1 # 2); Num (-1 # 2)]])
      by (injection Hb as <-; reflexivity).
    rewrite E in HL. inversion_clear HL as [|? ? Hlen _]. discriminate Hlen.
  - split; [split; reflexivity|]. split; [reflexivity|]. split; [lia|].
    reflexivity.
  - split; [split; reflexivity|]. split; [reflexivity|]. split; [lia|].
    reflexivity.
Qed.

Lemma number_div_value (raw : Z) :
  exists q, number_div raw 32768 = Num q /\ (q == inject_Z raw / 32768)%Q.
Proof.
  exists (Qred (inject_Z raw / inject_Z 32768)). split; [done|].
  apply Qred_correct.
Qed.

(** C2, as the code has it.  For a payload that views its whole buffer and
    holds whole 16-bit little-endian samples, a channel count and a sample
    rate that the context supports, every channel [c] below [numChannels]
    and every frame [i] below the frame count, the decoded buffer holds at
    [c], [i] the sample number [i * numChannels + c] of the payload (its
    bytes [lo], [hi] at twice that index) divided by 32768; the four bytes
    of the samples 16384 and -16384, a payload of their own, decode on one
    channel to [0.5, -0.5]. *)
Theorem decodeAudioData_samples (data : Uint8Array) (ctx : AudioContext)
    (rate : Q) (numChannels c i : nat) (lo hi : byte) :
  let n := length (payload data) / 2 in
  whole_buffer data ->
  length (payload data) mod 2 = 0 ->
  c < numChannels <= maxChannels ctx -> (Z.of_nat numChannels < 2 ^ 32)%Z ->
  supportedRate ctx rate = true ->
  i < n / numChannels -> (Z.of_nat (n / numChannels) < 2 ^ 32)%Z ->
  payload data !! (2 * (i * numChannels + c)) = Some lo ->
  payload data !! (2 * (i * numChannels + c) + 1) = Some hi ->
  (exists b d q,
    decodeAudioData data ctx rate numChannels = Return b
    /\ channels b !! c = Some d
    /\ d !! i = Some (Num q)
    /\ (q == inject_Z (int16_le lo hi) / 32768)%Q)
  /\ whole_buffer two_samples
  /\ payload two_samples = [x00; x40; x00; xc0]
  /\ int16_elements (payload two_samples) = [16384; -16384]%Z
  /\ decodeAudioData two_samples standard_context 24000%Q 1
     = Return {| sampleRate := 24000%Q; frames := 2;
                 channels := [[Num (1 # 2); Num (-1 # 2)]] |}.
Proof.
  intros n Hwhole. subst n. rewrite (payload_whole data Hwhole).
  intros Heven Hc Hc32 Hrate Hi Hq32 Hlo Hhi.
  split; [|split; [split; reflexivity | repeat split; reflexivity]].
  destruct (decodeAudioData_returns data ctx rate numChannels)
    as (b & Hrun & _ & _ & Hlen & _ & Hval);
    [exact Heven | lia | exact Hc32 | exact Hrate | lia | exact Hq32 |].
  destruct (lookup_lt_is_Some_2 (channels b) c ltac:(lia)) as [d Hd].
  destruct (number_div_value (int16_le lo hi)) as (q & Hq & Hqv).
  exists b, d, q. split; [exact Hrun|]. split; [exact Hd|]. split; [|exact Hqv].
  rewrite (Hval c d i Hd Hi). unfold sample.
  rewrite (int16_elements_lookup _ _ lo hi Hlo Hhi). now rewrite Hq.
Qed.

Lemma decodeAudioData_samples_witness :
  exists b d q,
    decodeAudioData two_samples standard_context 24000%Q 1 = Return b
    /\ channels b !! 0 = Some d
    /\ d !! 1 = Some (Num q)
    /\ (q == inject_Z (int16_le x00 xc0) / 32768)%Q.
Proof.
  apply (decodeAudioData_samples two_samples standard_context 24000%Q 1 0 1
           x00 xc0); [split; reflexivity | ..]; cbn; try reflexivity; lia.
Defined.

(** C2 as stated fails for a payload that is a view of part of a buffer:
    the code reads the buffer from its first byte.  The four-byte payload
    with the samples 16384 and -16384, at offset 2 in a buffer of six
    bytes, decodes on one channel to [0, 0.5, -0.5]: frame 0 is not sample
    0 of the payload over 32768, and the buffer is not [0.5, -0.5]. *)
Lemma decodeAudioData_offset_view_samples :
  payload offset_samples = [x00; x40; x00; xc0]
  /\ int16_elements (payload offset_samples) = [16384; -16384]%Z
  /\ decodeAudioData offset_samples standard_context 24000%Q 1
     = Return {| sampleRate := 24000%Q; frames := 3;
                 channels := [[Num 0; Num (1 # 2); Num (-1 # 2)]] |}
  /\ ~ (exists b d q,
          decodeAudioData offset_samples standard_context 24000%Q 1
          = Return b
          /\ channels b !! 0 = Some d
          /\ d !! 0 = Some (Num q)
          /\ (q == inject_Z (int16_le x00 x40) / 32768)%Q).
Proof.
  split; [reflexivity|]. split; [reflexivity|]. split; [reflexivity|].
  intros (b & d & q & Hb & Hd & Hq & Hv).
  assert (E : channels b = [[Num 0; Num (1 # 2); Num (-1 # 2)]])
    by (injection Hb as <-; reflexivity).
  rewrite E in Hd. injection Hd as <-. injection Hq as <-.
  discriminate Hv.
Qed.

(** A buffer of odd byte length is rejected, whatever is viewed of it. *)
Lemma decodeAudioData_odd_buffer (data : Uint8Array) (ctx : AudioContext)
    (rate : Q) (numChannels : nat) :
  length (buffer data) mod 2 = 1 ->
  decodeAudioData data ctx rate numChannels = Throw RangeError.
Proof.
  intros Hodd. unfold decodeAudioData, Int16Array_new. now rewrite Hodd.
Qed.

(** C3, as the code has it.  A payload of odd byte length that views its
    whole buffer is rejected, whatever the context, rate and channel count:
    the [Int16Array] constructor throws its [RangeError] (the framing error
    of the specification) and no buffer is returned. *)
Theorem decodeAudioData_odd_length (data : Uint8Array) (ctx : AudioContext)
    (rate : Q) (numChannels : nat) :
  whole_buffer data ->
  length (payload data) mod 2 = 1 ->
  decodeAudioData data ctx rate numChannels = Throw RangeError.
Proof.
  intros Hwhole. rewrite (payload_whole data Hwhole).
  apply decodeAudioData_odd_buffer.
Qed.

Lemma decodeAudioData_odd_length_witness :
  length (payload three_bytes) mod 2 = 1
  /\ decodeAudioData three_bytes standard_context 24000%Q 1
     = Throw RangeError.
Proof.
  split; [reflexivity|].
  apply (decodeAudioData_odd_length three_bytes standard_context 24000%Q 1).
  - split; reflexivity.
  - reflexivity.
Defined.

(** C3 as stated fails for a payload that is a view of part of a buffer:
    the constructor looks at the length of the buffer.  A payload of three
    bytes in a buffer of four is decoded, to the two samples of the
    buffer. *)
Lemma decodeAudioData_odd_view_decoded :
  length (payload odd_view) = 3
  /\ length (payload odd_view) mod 2 = 1
  /\ decodeAudioData odd_view standard_context 24000%Q 1
     = Return {| sampleRate := 24000%Q; frames := 2;
                 channels := [[Num (1 # 2); Num (-1 # 2)]] |}
  /\ decodeAudioData odd_view standard_context 24000%Q 1
     <> Throw RangeError.
Proof.
  split; [reflexivity|]. split; [reflexivity|]. split; [reflexivity|].
  discriminate.
Qed.




(** [decodeAudioData] always completes: the bound of the inner loop is never
    reached. *)
Lemma channels_loop_total (dataInt16 : list Z) (numChannels todo channel : nat)
    (b : AudioBuffer) :
  0 < numChannels ->
  channels_loop todo (S (length dataInt16)) dataInt16 numChannels
    (number_div (Z.of_nat (length dataInt16)) (Z.of_nat numChannels))
    channel b <> OutOfFuel.
Proof.
  intros Hc. revert channel b. induction todo as [|todo IH]; intros channel b.
  - discriminate.
  - cbn [channels_loop]. unfold getChannelData.
    destruct (channels b !! channel) as [cd|]; [|discriminate].
    cbn [mbind outcome_bind].
    destruct (frames_loop_spec dataInt16 numChannels Hc channel
                (length dataInt16) 0 cd) as (cd' & Hrun & _).
    { assert (length dataInt16 * 1 <= length dataInt16 * numChannels)
        by (apply Nat.mul_le_mono_l; lia). lia. }
    rewrite Hrun. apply IH.
Qed.

Lemma createBuffer_channels (ctx : AudioContext) (c : nat) (len : number)
    (rate : Q) (b : AudioBuffer) :
  createBuffer ctx c len rate = Return b -> 0 < c.
Proof.
  unfold createBuffer. destruct c as [|c]; [|lia].
  cbn. discriminate.
Qed.

Lemma decodeAudioData_total (data : Uint8Array) (ctx : AudioContext)
    (rate : Q) (numChannels : nat) :
  decodeAudioData data ctx rate numChannels <> OutOfFuel.
Proof.
  unfold decodeAudioData, Int16Array_new.
  destruct (length (buffer data) mod 2 =? 0); [|discriminate].
  cbn [mbind outcome_bind].
  destruct (createBuffer ctx numChannels _ rate) as [b| |] eqn:E.
  - apply channels_loop_total. eapply createBuffer_channels, E.
  - discriminate.
  - unfold createBuffer in E. destruct (_ || _); discriminate.
Qed.

(** ** [decode] and base64 *)

(** Induction three bytes at a time. *)
Lemma list_ind3 {A} (P : list A -> Prop) :
  P [] -> (forall x, P [x]) -> (forall x y, P [x; y]) ->
  (forall x y z l, P l -> P (x :: y :: z :: l)) ->
  forall l, P l.
Proof.
  intros H0 H1 H2 H3 l.
  assert (H : P l /\ (forall x, P (x :: l)) /\ (forall x y, P (x :: y :: l))).
  { induction l as [|a l (IH0 & IH1 & IH2)]; [auto|].
    split; [apply IH1|]. split; [intros x; apply IH2|].
    intros x y. apply H3, IH0. }
  apply H.
Qed.

Lemma byte_bound (b : byte) : (Byte.to_N b < 256)%N.
Proof. pose proof (Byte.to_N_bounded b). lia. Qed.

Lemma base64_value_char_all :
  forallb (λ k, match base64_value (base64_char (N.of_nat k)) with
                | Some v => (v =? N.of_nat k)%N
                | None => false
                end
                && negb (is_ascii_whitespace (base64_char (N.of_nat k)))
                && negb (base64_char (N.of_nat k) =? 61)%N)
    (seq 0 64) = true.
Proof. vm_compute. reflexivity. Qed.

Lemma base64_char_facts (v : N) :
  (v < 64)%N ->
  base64_value (base64_char v) = Some v
  /\ is_ascii_whitespace (base64_char v) = false
  /\ base64_char v <> 61%N.
Proof.
  intros Hv. pose proof base64_value_char_all as H.
  rewrite forallb_forall in H. specialize (H (N.to_nat v)).
  rewrite N2Nat.id in H.
  assert (Hin : In (N.to_nat v) (seq 0 64)) by (apply in_seq; lia).
  apply H in Hin. apply andb_true_iff in Hin as [Hin H3].
  apply andb_true_iff in Hin as [H1 H2].
  split; [|split].
  - destruct (base64_value (base64_char v)) as [w|]; [|discriminate].
    apply N.eqb_eq in H1. now subst.
  - now apply negb_true_iff in H2.
  - apply negb_true_iff in H3. now apply N.eqb_neq in H3.
Qed.

Lemma encode_sextets_bound (bs : list byte) :
  Forall (λ v, (v < 64)%N) (encode_sextets bs).
Proof.
  induction bs as [|x|x y|x y z l IH] using list_ind3; cbn [encode_sextets].
  - constructor.
  - pose proof (byte_bound x).
    repeat constructor; try (apply N.mod_lt; lia).
    apply N.Div0.div_lt_upper_bound; lia.
  - pose proof (byte_bound x). pose proof (byte_bound y).
    repeat constructor; try (apply N.mod_lt; lia).
    apply N.Div0.div_lt_upper_bound; lia.
  - pose proof (byte_bound x). pose proof (byte_bound y).
    pose proof (byte_bound z).
    repeat constructor; try (apply N.mod_lt; lia); try exact IH.
    apply N.Div0.div_lt_upper_bound; lia.
Qed.

Lemma base64_encode_split (bs : list byte) :
  base64_encode bs = map base64_char (encode_sextets bs) ++ padding bs.
Proof.
  induction bs as [|x|x y|x y z l IH] using list_ind3;
    cbn [base64_encode encode_sextets map app]; try reflexivity.
  rewrite IH. unfold padding. cbn [length].
  replace (S (S (S (length l))) mod 3) with (length l mod 3); [reflexivity|].
  change (S (S (S (length l)))) with (1 * 3 + length l) at 1.
  rewrite Nat.add_comm, Nat.Div0.mod_add. reflexivity.
Qed.

Lemma sextets_to_bytes_encode (bs : list byte) :
  sextets_to_bytes (encode_sextets bs) = map Byte.to_N bs.
Proof.
  induction bs as [|x|x y|x y z l IH] using list_ind3;
    cbn [encode_sextets sextets_to_bytes map]; try reflexivity.
  - pose proof (byte_bound x). f_equal. div_lia.
  - pose proof (byte_bound x). pose proof (byte_bound y).
    f_equal; [div_lia|]. f_equal. div_lia.
  - pose proof (byte_bound x). pose proof (byte_bound y).
    pose proof (byte_bound z).
    rewrite IH.
    set (n := ((Byte.to_N x * 256 + Byte.to_N y) * 256 + Byte.to_N z)%N).
    assert (Hn : ((((n / 262144) * 64 + n / 4096 mod 64) * 64
                   + n / 64 mod 64) * 64 + n mod 64 = n)%N) by div_lia.
    rewrite Hn. subst n.
    f_equal; [div_lia|]. f_equal; [div_lia|]. f_equal. div_lia.
Qed.

Lemma ToUint8_to_N (b : byte) : ToUint8 (Byte.to_N b) = b.
Proof. destruct b; reflexivity. Qed.

Lemma encode_sextets_length (bs : list byte) :
  length (encode_sextets bs) mod 4 <> 1
  /\ (length (encode_sextets bs) + length (padding bs)) mod 4 = 0.
Proof.
  induction bs as [|x|x y|x y z l IH] using list_ind3;
    cbn [encode_sextets length]; try (cbn; lia).
  unfold padding in *. cbn [length].
  replace (S (S (S (length l))) mod 3) with (length l mod 3).
  2:{ change (S (S (S (length l)))) with (1 * 3 + length l) at 1.
      rewrite Nat.add_comm, Nat.Div0.mod_add. reflexivity. }
  rewrite length_replicate in *.
  replace (S (S (S (S (length (encode_sextets l))))))
    with (length (encode_sextets l) + 1 * 4) by lia.
  split.
  - rewrite Nat.Div0.mod_add. apply IH.
  - replace (length (encode_sextets l) + 1 * 4 + (3 - length l mod 3) mod 3)
      with (length (encode_sextets l) + (3 - length l mod 3) mod 3 + 1 * 4)
      by lia.
    rewrite Nat.Div0.mod_add. apply IH.
Qed.

Lemma ends_with_equals_snoc (l : jsstring) (c : codeunit) :
  ends_with_equals (l ++ [c]) = (c =? 61)%N.
Proof. unfold ends_with_equals. now rewrite last_snoc. Qed.

Lemma ends_with_equals_chars (vs : list N) :
  Forall (λ v, (v < 64)%N) vs ->
  ends_with_equals (map base64_char vs) = false.
Proof.
  intros H. destruct vs as [|v vs _] using rev_ind; [reflexivity|].
  rewrite map_app. cbn [map]. rewrite ends_with_equals_snoc.
  apply Forall_app in H as [_ H]. inversion_clear H as [|? ? Hv _].
  apply N.eqb_neq. now apply base64_char_facts.
Qed.

Lemma strip_padding_encode (bs : list byte) :
  strip_padding (base64_encode bs) = map base64_char (encode_sextets bs).
Proof.
  rewrite base64_encode_split. unfold strip_padding.
  rewrite length_app, length_map.
  rewrite (proj2 (encode_sextets_length bs)). cbn [Nat.eqb].
  pose proof (ends_with_equals_chars _ (encode_sextets_bound bs)) as Hnp.
  unfold padding.
  assert (Hcases : (3 - length bs mod 3) mod 3 = 0
                   \/ (3 - length bs mod 3) mod 3 = 1
                   \/ (3 - length bs mod 3) mod 3 = 2).
  { pose proof (Nat.mod_upper_bound (3 - length bs mod 3) 3). lia. }
  destruct Hcases as [-> | [-> | ->]]; cbn [replicate].
  - rewrite app_nil_r, Hnp. reflexivity.
  - rewrite ends_with_equals_snoc. cbn [N.eqb Pos.eqb].
    rewrite removelast_last, Hnp. reflexivity.
  - change [61%N; 61%N] with ([61%N] ++ [61%N]). rewrite app_assoc.
    rewrite ends_with_equals_snoc. cbn [N.eqb Pos.eqb].
    rewrite removelast_last, ends_with_equals_snoc. cbn [N.eqb Pos.eqb].
    rewrite removelast_last. reflexivity.
Qed.

Lemma filter_Forall_id {A} (P : A -> Prop) `{!forall x, Decision (P x)}
    (l : list A) :
  Forall P l -> filter P l = l.
Proof.
  induction 1 as [|x l Hx _ IH]; [reflexivity|].
  rewrite filter_cons_True by exact Hx. now rewrite IH.
Qed.

Lemma filter_whitespace_encode (bs : list byte) :
  filter (λ c, is_ascii_whitespace c = false) (base64_encode bs)
  = base64_encode bs.
Proof.
  apply filter_Forall_id. rewrite base64_encode_split.
  apply Forall_app. split.
  - rewrite Forall_forall. intros c Hc. apply list_elem_of_In in Hc.
    apply in_map_iff in Hc as (v & <- & Hv).
    pose proof (encode_sextets_bound bs) as Hb. rewrite Forall_forall in Hb.
    apply base64_char_facts, Hb. now apply list_elem_of_In.
  - unfold padding. apply Forall_replicate. reflexivity.
Qed.

Lemma mapM_base64_value_chars (vs : list N) :
  Forall (λ v, (v < 64)%N) vs ->
  mapM base64_value (map base64_char vs) = Some vs.
Proof.
  induction 1 as [|v vs Hv _ IH]; [reflexivity|].
  cbn [map mapM]. rewrite (proj1 (base64_char_facts v Hv)).
  cbn [mbind option_bind]. cbn [mapM] in IH. rewrite IH. reflexivity.
Qed.

Lemma forgiving_base64_decode_encode (bs : list byte) :
  forgiving_base64_decode (base64_encode bs) = Some (map Byte.to_N bs).
Proof.
  unfold forgiving_base64_decode.
  rewrite filter_whitespace_encode, strip_padding_encode, length_map.
  destruct (Nat.eqb_spec (length (encode_sextets bs) mod 4) 1) as [E|_].
  - now apply encode_sextets_length in E.
  - rewrite mapM_base64_value_chars by apply encode_sextets_bound.
    cbn [mbind option_bind]. now rewrite sextets_to_bytes_encode.
Qed.

(** The loop of [decode] fills the array with the bytes of the string. *)
Lemma decode_loop_spec (s done todo : jsstring) (zeros : list byte) :
  s = done ++ todo -> length zeros = length todo ->
  decode_loop (length todo) (length done) s
    {| buffer := map ToUint8 done ++ zeros; byteOffset := 0;
       u8length := length s |}
  = {| buffer := map ToUint8 s; byteOffset := 0; u8length := length s |}.
Proof.
  revert done zeros. induction todo as [|c todo IH]; intros done zeros Hs Hz.
  - destruct zeros; [|discriminate]. rewrite app_nil_r in Hs. subst s.
    cbn [decode_loop length]. now rewrite app_nil_r.
  - destruct zeros as [|z zeros]; [discriminate|].
    cbn [decode_loop length]. unfold Uint8Array_set.
    cbn [u8length byteOffset buffer].
    assert (Hlt : length done < length s).
    { subst s. rewrite length_app. cbn. lia. }
    apply Nat.ltb_lt in Hlt. rewrite Hlt.
    assert (Hc : charCodeAt s (length done) = Some c).
    { unfold charCodeAt. subst s. now apply list_lookup_middle. }
    rewrite Hc. cbn [default Nat.add].
    replace (<[length done := ToUint8 c]> (map ToUint8 done ++ z :: zeros))
      with (map ToUint8 (done ++ [c]) ++ zeros).
    2:{ rewrite map_app, <- app_assoc. cbn [map app].
        rewrite insert_app_r_alt by (rewrite length_map; lia).
        rewrite length_map, Nat.sub_diag. reflexivity. }
    replace (S (length done)) with (length (done ++ [c]))
      by (rewrite length_app; cbn; lia).
    apply IH.
    + subst s. now rewrite <- app_assoc.
    + cbn in Hz. lia.
Qed.

Lemma decode_returns (base64 : jsstring) (bytes : list N) :
  forgiving_base64_decode base64 = Some bytes ->
  decode base64
  = Return {| buffer := map ToUint8 bytes; byteOffset := 0;
              u8length := length bytes |}.
Proof.
  intros H. unfold decode, atob. rewrite H. cbn [mbind outcome_bind].
  f_equal. unfold Uint8Array_new.
  apply (decode_loop_spec bytes [] bytes (replicate (length bytes) x00)).
  - reflexivity.
  - apply length_replicate.
Qed.

Lemma decode_base64_encode (bs : list byte) :
  decode (base64_encode bs)
  = Return {| buffer := bs; byteOffset := 0; u8length := length bs |}.
Proof.
  rewrite (decode_returns _ _ (forgiving_base64_decode_encode bs)).
  rewrite length_map, map_map. f_equal. f_equal.
  rewrite <- (map_id bs) at 2. apply map_ext. apply ToUint8_to_N.
Qed.

Lemma elem_of_removelast_equals (l : list N) (c : N) :
  ends_with_equals l = true -> c ∈ l -> c <> 61%N -> c ∈ removelast l.
Proof.
  unfold ends_with_equals. intros He Hc Hne.
  destruct (last l) as [x|] eqn:Hl; [|discriminate].
  apply N.eqb_eq in He. subst x.
  apply last_Some in Hl as [l' ->]. rewrite removelast_last.
  apply elem_of_app in Hc as [Hc|Hc]; [exact Hc|].
  apply list_elem_of_singleton in Hc. contradiction.
Qed.

Lemma elem_of_strip_padding (l : list N) (c : N) :
  c ∈ l -> c <> 61%N -> c ∈ strip_padding l.
Proof.
  intros Hc Hne. unfold strip_padding.
  destruct (length l mod 4 =? 0); [|exact Hc].
  destruct (ends_with_equals l) eqn:H1; [|exact Hc].
  pose proof (elem_of_removelast_equals l c H1 Hc Hne) as Hc1.
  destruct (ends_with_equals (removelast l)) eqn:H2; [|exact Hc1].
  now apply elem_of_removelast_equals.
Qed.

Lemma forgiving_base64_decode_invalid (base64 : list N) (c : N) :
  c ∈ base64 -> base64_value c = None -> c <> 61%N ->
  is_ascii_whitespace c = false ->
  forgiving_base64_decode base64 = None.
Proof.
  intros Hc Hv Hne Hws. unfold forgiving_base64_decode.
  set (data := strip_padding _).
  assert (Hin : c ∈ data).
  { apply elem_of_strip_padding; [|exact Hne].
    apply list_elem_of_filter. split; [exact Hws | exact Hc]. }
  destruct (length data mod 4 =? 1); [reflexivity|].
  replace (mapM base64_value data) with (@None (list N)); [reflexivity|].
  symmetry. apply mapM_None. apply Exists_exists. exists c. split; assumption.
Qed.

Lemma filter_whitespace_idempotent (s : list N) :
  filter (λ c, is_ascii_whitespace c = false)
    (filter (λ c, is_ascii_whitespace c = false) s)
  = filter (λ c, is_ascii_whitespace c = false) s.
Proof.
  apply filter_Forall_id. apply Forall_forall. intros c Hc.
  now apply list_elem_of_filter in Hc as [Hc _].
Qed.

(** C5, as the code has it.  [decode] is the forgiving base64 decoding of
    [atob]: the standard encoding of every byte sequence decodes to that
    sequence; an input holding a character that is neither of the base64
    alphabet, nor [=], nor ASCII whitespace is rejected with the
    [InvalidCharacterError] of [atob] (the decode error of the
    specification); and ASCII whitespace (tab, line feed, form feed,
    carriage return, space) is ignored: every input decodes as it does with
    its ASCII whitespace removed. *)
Theorem decode_forgiving_base64 :
  (forall bs : list byte,
     decode (base64_encode bs)
     = Return {| buffer := bs; byteOffset := 0; u8length := length bs |})
  /\ (forall (base64 : list N) (c : N),
        c ∈ base64 -> base64_value c = None -> c <> 61%N ->
        is_ascii_whitespace c = false ->
        decode base64 = Throw InvalidCharacterError)
  /\ (forall base64 : list N,
        decode base64
        = decode (filter (λ c, is_ascii_whitespace c = false) base64))
  /\ (forall c : N,
        is_ascii_whitespace c = true
        <-> c = 9%N \/ c = 10%N \/ c = 12%N \/ c = 13%N \/ c = 32%N).
Proof.
  split; [exact decode_base64_encode|]. split; [|split].
  - intros base64 c Hc Hv Hne Hws. unfold decode, atob.
    now rewrite (forgiving_base64_decode_invalid base64 c Hc Hv Hne Hws).
  - intros base64. unfold decode, atob, forgiving_base64_decode.
    now rewrite filter_whitespace_idempotent.
  - intros c. unfold is_ascii_whitespace.
    rewrite !orb_true_iff, !N.eqb_eq. tauto.
Qed.

Lemma decode_forgiving_base64_witness :
  decode (base64_encode [x48; x69])
  = Return {| buffer := [x48; x69]; byteOffset := 0; u8length := 2 |}
  /\ decode (lit "SG*p") = Throw InvalidCharacterError
  /\ decode (lit "S G k =") = decode (lit "SGk=").
Proof.
  split; [|split].
  - exact (proj1 decode_forgiving_base64 [x48; x69]).
  - apply (proj1 (proj2 decode_forgiving_base64) (lit "SG*p") 42%N).
    + apply list_elem_of_In. cbn. tauto.
    + reflexivity.
    + discriminate.
    + reflexivity.
  - exact (proj1 (proj2 (proj2 decode_forgiving_base64)) (lit "S G k =")).
Defined.

(** C5 as stated fails on whitespace: a space is no base64 character, yet
    [atob] drops it and the input decodes. *)
Lemma decode_accepts_whitespace :
  32%N ∈ lit "QQ ==" /\ base64_value 32 = None /\ 32%N <> 61%N
  /\ decode (lit "QQ ==")
     = Return {| buffer := [x41]; byteOffset := 0; u8length := 1 |}.
Proof.
  split; [|split; [reflexivity|split; [discriminate|reflexivity]]].
  apply list_elem_of_In. cbn. tauto.
Qed.

(** ** The SSML template *)

Lemma Math_round_nearest (x : float64) (n : Z) :
  Math_round x = Int n ->
  exists q, f64_value x = Some q
    /\ (inject_Z n - (1 # 2) <= q)%Q /\ (q < inject_Z n + (1 # 2))%Q.
Proof.
  destruct x as [s|s| |s m e]; cbn [Math_round f64_value]; intros H;
    try discriminate.
  - injection H as <-. exists 0%Q. split; [reflexivity|].
    split; [unfold Qle | unfold Qlt]; cbn; lia.
  - injection H as <-. set (zm := cond_Zopp s (Z.pos m)).
    eexists. split; [reflexivity|].
    destruct (Z.leb_spec 0 e) as [He|He].
    + rewrite inject_Z_mult, Zpower_Qpower by exact He.
      change (inject_Z 2) with 2%Q.
      set (v := (inject_Z zm * 2 ^ e)%Q).
      split.
      * apply Qle_minus_iff. ring_simplify. discriminate.
      * apply Qlt_minus_iff. ring_simplify. reflexivity.
    + set (k := (- e)%Z). assert (Hk : (0 < k)%Z) by lia.
      replace e with (- k)%Z by lia. replace (1 - - k)%Z with (k + 1)%Z by lia.
      rewrite Qpower_opp.
      set (n := ((2 * zm + 2 ^ k) / 2 ^ (k + 1))%Z).
      assert (Hp : (0 < 2 ^ k)%Z) by (apply Z.pow_pos_nonneg; lia).
      assert (Hp1 : (2 ^ (k + 1) = 2 * 2 ^ k)%Z).
      { rewrite Z.pow_add_r by lia. lia. }
      pose proof (Z.div_mod (2 * zm + 2 ^ k) (2 ^ (k + 1)) ltac:(lia)) as Hdm.
      pose proof (Z.mod_pos_bound (2 * zm + 2 ^ k) (2 ^ (k + 1)) ltac:(lia))
        as Hb.
      fold n in Hdm.
      assert (HQ : (2 ^ k == inject_Z (2 ^ k))%Q).
      { rewrite Zpower_Qpower by lia. reflexivity. }
      assert (HQpos : (0 < inject_Z (2 ^ k))%Q).
      { change 0%Q with (inject_Z 0). rewrite <- Zlt_Qlt. exact Hp. }
      rewrite HQ. split.
      * apply Qle_shift_div_l; [exact HQpos|].
        unfold Qle. cbn [Qnum Qden Qmult Qminus Qplus Qopp inject_Z].
        rewrite !Pos.mul_1_r. nia.
      * apply Qlt_shift_div_r; [exact HQpos|].
        unfold Qlt. cbn [Qnum Qden Qmult Qminus Qplus Qopp inject_Z].
        rewrite !Pos.mul_1_r. nia.
Qed.

(** Every position of the rate slider (a multiple of 0.05 from 0.25 to 1.5)
    rounds to its nominal percentage. *)
Lemma slider_rates_round_to_percent :
  forallb (λ k, match Math_round (f64_mul (f64_div (f64_of_Z (Z.of_nat k))
                                             (f64_of_Z 20)) (f64_of_Z 100)) with
                | Int n => (n =? 5 * Z.of_nat k)%Z
                | _ => false
                end) (seq 5 26) = true.
Proof. vm_compute. reflexivity. Qed.

(** Integers below 2^53 in magnitude are Numbers: the conversion to
    binary64 keeps them. *)
Lemma digits2_pos_size (m : positive) : digits2_pos m = Pos.size m.
Proof. induction m as [m IH|m IH|]; cbn; now rewrite ?IH. Qed.

Lemma iter_xO_mul (m k : positive) :
  Zpos (Pos.iter xO m k) = (Zpos m * 2 ^ Zpos k)%Z.
Proof.
  induction k as [|k IH] using Pos.peano_ind.
  - cbn. lia.
  - rewrite Pos.iter_succ, Pos2Z.inj_succ, Z.pow_succ_r by lia.
    rewrite Pos2Z.inj_xO, IH. lia.
Qed.

Lemma iter_xO_digits (m k : positive) :
  digits2_pos (Pos.iter xO m k) = (digits2_pos m + k)%positive.
Proof.
  induction k as [|k IH] using Pos.peano_ind.
  - cbn. lia.
  - rewrite Pos.iter_succ. cbn [digits2_pos]. rewrite IH. lia.
Qed.

Lemma digits2_pos_bound (m : positive) :
  (Zpos m < 2 ^ 53)%Z -> (Zpos (digits2_pos m) <= 53)%Z.
Proof.
  intros Hm. rewrite digits2_pos_size.
  destruct (Z.le_gt_cases (Zpos (Pos.size m)) 53) as [H|H]; [exact H|].
  exfalso. pose proof (Pos.size_le m) as Hs.
  assert (Hp : (2 ^ 54 <= 2 ^ Zpos (Pos.size m))%Z)
    by (apply Z.pow_le_mono_r; lia).
  assert (Hs' : (2 ^ Zpos (Pos.size m) <= 2 * Zpos m)%Z).
  { rewrite <- (Pos2Z.inj_pow 2 (Pos.size m)).
    change (2 * Zpos m)%Z with (Zpos (m~0)). apply Pos2Z.pos_le_pos.
    exact Hs. }
  change (2 ^ 54)%Z with (2 * 2 ^ 53)%Z in Hp. lia.
Qed.

Lemma binary_round_exact (s : bool) (m : positive) :
  (Zpos m < 2 ^ 53)%Z ->
  exists m' e,
    binary_round 53 1024 s m 0 = S754_finite s m' e
    /\ f64_trunc (S754_finite s m' e) = cond_Zopp s (Zpos m).
Proof.
  intros Hm. pose proof (digits2_pos_bound m Hm) as Hd.
  unfold binary_round, shl_align, fexp, emin.
  rewrite Z.add_0_r, Z.sub_0_r.
  rewrite Z.max_l by lia.
  destruct (Zpos (digits2_pos m) - 53)%Z as [|k|k] eqn:Hk; [|lia|].
  - unfold binary_round_aux, shr_fexp, fexp, emin.
    cbn [Zdigits2 shr_record_of_loc]. rewrite Z.add_0_r, Z.sub_0_r.
    rewrite Hk. change (Z.max 0 (3 - 1024 - 53)) with 0%Z.
    cbn [shr shr_m loc_of_shr_record round_nearest_even Zdigits2].
    rewrite Z.add_0_r, Z.sub_0_r, Hk.
    change (Z.max 0 (3 - 1024 - 53)) with 0%Z.
    cbn [shr shr_m]. change (0 <=? 1024 - 53)%Z with true.
    eexists _, _. split; [reflexivity|].
    cbn [f64_trunc]. change (0 <=? 0)%Z with true. cbn iota.
    now rewrite Z.pow_0_r, Z.mul_1_r.
  - unfold binary_round_aux, shr_fexp, fexp, emin.
    cbn [Zdigits2 shr_record_of_loc]. rewrite iter_xO_digits.
    assert (E : (Zpos (digits2_pos m + k) = 53)%Z)
      by (rewrite Pos2Z.inj_add; lia).
    assert (Hk52 : (Zpos k <= 52)%Z) by lia.
    rewrite E.
    assert (E2 : (Z.max (53 + Zneg k - 53) (3 - 1024 - 53) - Zneg k = 0)%Z)
      by lia.
    rewrite E2. cbn [shr shr_m loc_of_shr_record round_nearest_even Zdigits2].
    rewrite iter_xO_digits, E, E2. cbn [shr shr_m].
    assert (E3 : (Zneg k <=? 1024 - 53)%Z = true) by (apply Z.leb_le; lia).
    rewrite E3. eexists _, _. split; [reflexivity|]. cbn [f64_trunc].
    assert (E4 : (0 <=? Zneg k)%Z = false) by (apply Z.leb_gt; lia).
    rewrite E4. f_equal. rewrite iter_xO_mul.
    change (- Zneg k)%Z with (Zpos k).
    apply Z.div_mul. apply Z.pow_nonzero; lia.
Qed.

Lemma Number_of_Z_exact (z : Z) :
  (Z.abs z < 2 ^ 53)%Z -> Number_of_Z z = Int z.
Proof.
  intros Hz. unfold Number_of_Z, f64_of_Z.
  destruct z as [|m|m]; [reflexivity | |]; cbn [binary_normalize].
  - destruct (binary_round_exact false m) as (m' & e & -> & Ht); [lia|].
    now rewrite Ht.
  - destruct (binary_round_exact true m) as (m' & e & -> & Ht); [lia|].
    now rewrite Ht.
Qed.

Lemma reads_as_exact (c v : Z) :
  (Z.abs c < 2 ^ 53)%Z -> reads_as c v = (c =? v)%Z.
Proof. intros Hc. unfold reads_as. now rewrite Number_of_Z_exact. Qed.

Lemma digits10_le (fuel : nat) (v : Z) :
  (1 <= v)%Z -> (10 ^ Z.of_nat (digits10 fuel v) <= v)%Z.
Proof.
  revert v. induction fuel as [|fuel IH]; intros v Hv; cbn [digits10].
  - cbn. lia.
  - destruct (Z.ltb_spec v 10) as [Hlt|Hge]; [cbn; lia|].
    rewrite Nat2Z.inj_succ, Z.pow_succ_r by lia.
    assert (H1 : (1 <= v / 10)%Z) by div_lia.
    specialize (IH (v / 10)%Z H1).
    assert (H2 : (10 * (v / 10) <= v)%Z) by div_lia. lia.
Qed.

(** Below 2^52 the shortest digits are the digits of the integer. *)
Lemma shortest_from_exact (e : nat) (v : Z) :
  (1 <= v < 2 ^ 52)%Z -> (10 ^ Z.of_nat e <= v)%Z ->
  shortest_from e v = v.
Proof.
  intros Hv. induction e as [|e IH]; intros He.
  - cbn [shortest_from]. change (10 ^ Z.of_nat 0)%Z with 1%Z.
    rewrite Z.div_1_r, Z.mul_1_r.
    rewrite !reads_as_exact by lia. rewrite Z.eqb_refl.
    destruct (Z.eqb_spec (v + 1) v); [lia | reflexivity].
  - cbn [shortest_from]. set (p := (10 ^ Z.of_nat (S e))%Z) in *.
    assert (Hp : (0 < p)%Z) by (apply Z.pow_pos_nonneg; lia).
    assert (Hlo : (v - p < v / p * p <= v)%Z).
    { pose proof (Z.div_mod v p ltac:(lia)).
      pose proof (Z.mod_pos_bound v p Hp). nia. }
    rewrite !reads_as_exact by lia.
    destruct (Z.eqb_spec (v / p * p + p) v) as [E|_]; [lia|].
    destruct (Z.eqb_spec (v / p * p) v) as [E|_]; [exact E|].
    apply IH. subst p. rewrite Nat2Z.inj_succ, Z.pow_succ_r in He by lia.
    assert (0 < 10 ^ Z.of_nat e)%Z by (apply Z.pow_pos_nonneg; lia). lia.
Qed.

Lemma decimal_opp (m : positive) :
  decimal (Zneg m) = lit "-" ++ decimal (Zpos m).
Proof. reflexivity. Qed.

Lemma NumberToString_exact (z : Z) :
  (Z.abs z < 2 ^ 52)%Z -> NumberToString (Int z) = Some (decimal z).
Proof.
  intros Hz. unfold NumberToString.
  rewrite Number_of_Z_exact by lia.
  assert (Hpos : forall m : positive,
            (Zpos m < 2 ^ 52)%Z ->
            (if (shortest (Zpos m) <? 10 ^ 21)%Z
             then decimal (shortest (Zpos m))
             else exponential (shortest (Zpos m))) = decimal (Zpos m)).
  { intros m Hm. unfold shortest.
    rewrite shortest_from_exact; [| lia | apply digits10_le; lia].
    assert (H21 : (Zpos m <? 10 ^ 21)%Z = true) by (apply Z.ltb_lt; lia).
    now rewrite H21. }
  destruct z as [|m|m]; [reflexivity | |].
  - change (Z.abs (Zpos m)) with (Zpos m). rewrite Hpos by lia. reflexivity.
  - change (Z.abs (Zneg m)) with (Zpos m). rewrite Hpos by lia.
    now rewrite decimal_opp.
Qed.

(** Past 2^53 the digits are the shortest that read back as the same
    Number, zeros after them; from 10^21 on an exponent follows; past the
    largest double the Number is an infinity. *)
Lemma NumberToString_examples :
  NumberToString (Int (2 ^ 53 + 1)) = Some (lit "9007199254740992")
  /\ NumberToString (Int (2 ^ 64)) = Some (lit "18446744073709552000")
  /\ NumberToString (Int (- 2 ^ 64)) = Some (lit "-18446744073709552000")
  /\ NumberToString (Int (100 * 2 ^ 62))
     = Some (lit "461168601842738800000")
  /\ NumberToString (Int (10 ^ 21)) = Some (lit "1e+21")
  /\ NumberToString (Int (2 ^ 70)) = Some (lit "1.1805916207174113e+21")
  /\ NumberToString (Int (10 ^ 23)) = Some (lit "1e+23")
  /\ NumberToString (Int ((2 ^ 53 - 1) * 2 ^ 971))
     = Some (lit "1.7976931348623157e+308")
  /\ NumberToString (Int (2 ^ 1024)) = Some (lit "Infinity").
Proof. vm_compute. repeat split; reflexivity. Qed.

Lemma NumberToString_total (x : integral) :
  exists s, NumberToString x = Some s.
Proof.
  unfold NumberToString.
  destruct (match x with Int z => Number_of_Z z | _ => x end);
    eexists; reflexivity.
Qed.

(** C6.  For every text, every rate and every integer pitch, the SSML is
    the text inside a [prosody] element inside [speak], with [rate] the
    string of [rate * 100] rounded, followed by a percent sign, and [pitch]
    the string of the pitch followed by [st]; the strings are those of the
    template literal.  Where the rate rounds to an integer [n], [n] is
    [rate * 100] rounded to the nearest integer, halves upward; an integer
    below 2^52 in magnitude, percentage or pitch, is written in its
    decimal digits, with [-] before a negative one.  The rate 0.7, the
    pitch -3 and the text Hello give exactly the document of the scenario,
    code unit by code unit. *)
Theorem newSsml_prosody (textToSpeak : list N) (rate : float64) (pitch : Z) :
  (exists r p : list N,
     newSsml textToSpeak rate pitch
     = Some (lit "<speak><prosody rate=" ++ 34%N :: r ++ lit "%"
             ++ 34%N :: lit " pitch=" ++ 34%N :: p ++ lit "st"
             ++ 34%N :: lit ">" ++ textToSpeak ++ lit "</prosody></speak>")
     /\ NumberToString (Math_round (f64_mul rate (f64_of_Z 100))) = Some r
     /\ NumberToString (Int pitch) = Some p
     /\ (forall n : Z,
           Math_round (f64_mul rate (f64_of_Z 100)) = Int n ->
           (exists q, f64_value (f64_mul rate (f64_of_Z 100)) = Some q
              /\ (inject_Z n - (1 # 2) <= q)%Q
              /\ (q < inject_Z n + (1 # 2))%Q)
           /\ ((Z.abs n < 2 ^ 52)%Z -> r = decimal n))
     /\ ((Z.abs pitch < 2 ^ 52)%Z -> p = decimal pitch))
  /\ newSsml (lit "Hello") (f64_div (f64_of_Z 7) (f64_of_Z 10)) (-3)
     = Some [60; 115; 112; 101; 97; 107; 62; 60; 112; 114; 111; 115; 111;
              100; 121; 32; 114; 97; 116; 101; 61; 34; 55; 48;
              37; 34; 32; 112; 105; 116; 99; 104; 61; 34; 45;
              51; 115; 116; 34; 62; 72; 101; 108; 108; 111;
              60; 47; 112; 114; 111; 115; 111; 100; 121; 62;
              60; 47; 115; 112; 101; 97; 107; 62]%N.
Proof.
  split; [|vm_compute; reflexivity].
  destruct (NumberToString_total
              (Math_round (f64_mul rate (f64_of_Z 100)))) as [r Hr].
  destruct (NumberToString_total (Int pitch)) as [p Hp].
  exists r, p. split; [|split; [exact Hr|split; [exact Hp|split]]].
  - unfold newSsml. rewrite Hr, Hp. cbn [mbind option_bind].
    unfold dquote. now rewrite <- !app_assoc.
  - intros n Hn. split; [now apply Math_round_nearest|].
    intros Hsafe. rewrite Hn, NumberToString_exact in Hr by exact Hsafe.
    now injection Hr.
  - intros Hsafe. rewrite NumberToString_exact in Hp by exact Hsafe.
    now injection Hp.
Qed.

Lemma newSsml_prosody_witness :
  exists r p : list N,
    newSsml (lit "Hello") (f64_div (f64_of_Z 7) (f64_of_Z 10)) (-3)
    = Some (lit "<speak><prosody rate=" ++ 34%N :: r ++ lit "%"
            ++ 34%N :: lit " pitch=" ++ 34%N :: p ++ lit "st"
            ++ 34%N :: lit ">" ++ lit "Hello" ++ lit "</prosody></speak>")
    /\ r = decimal 70 /\ p = decimal (-3).
Proof.
  destruct (newSsml_prosody (lit "Hello")
              (f64_div (f64_of_Z 7) (f64_of_Z 10)) (-3))
    as [(r & p & H & _ & _ & Hn & Hp) _].
  exists r, p. split; [exact H|]. split.
  - apply (Hn 70%Z); [vm_compute; reflexivity | reflexivity].
  - apply Hp. reflexivity.
Defined.

(** ** [synthesizeSpeech] *)

(** C10.  [synthesizeSpeech] returns only a non-empty string, the audio data
    of the response, and otherwise throws an [Error]; a response whose audio
    data is absent or the empty string becomes the error
    "Failed to synthesize speech: API did not return audio data.". *)
Theorem synthesizeSpeech_never_empty
    (generateContent : list N -> list N -> upstream) (ssml voiceName : list N) :
  ((exists base64Audio,
      synthesizeSpeech generateContent ssml voiceName = Return base64Audio
      /\ base64Audio <> []
      /\ exists response,
           generateContent ssml voiceName = Resolved response
           /\ inlineAudio response = Some base64Audio)
   \/ (exists message,
         synthesizeSpeech generateContent ssml voiceName
         = Throw (JsError message)))
  /\ (forall response,
        generateContent ssml voiceName = Resolved response ->
        inlineAudio response = None \/ inlineAudio response = Some [] ->
        synthesizeSpeech generateContent ssml voiceName
        = Throw (JsError (lit "Failed to synthesize speech: "
                          ++ lit "API did not return audio data."))).
Proof.
  unfold synthesizeSpeech, synthesizeSpeech_try. split.
  - destruct (generateContent ssml voiceName) as [response|[message|]].
    + destruct (inlineAudio response) as [[|c s]|] eqn:E.
      * right. eauto.
      * left. exists (c :: s). split; [reflexivity|]. split; [discriminate|].
        eauto.
      * right. eauto.
    + right. eauto.
    + right. eauto.
  - intros response -> [-> | ->]; reflexivity.
Qed.

Lemma synthesizeSpeech_never_empty_witness :
  synthesizeSpeech (λ _ _, audio_response []) (lit "<speak/>") (lit "Kore")
  = Throw (JsError (lit "Failed to synthesize speech: "
                    ++ lit "API did not return audio data.")).
Proof.
  apply (proj2 (synthesizeSpeech_never_empty (λ _ _, audio_response [])
                  (lit "<speak/>") (lit "Kore"))
           (mkResponse (Some [mkCandidate (Some (mkContent (Some
              [mkPart (Some (mkBlob (Some [])))])))]))).
  - reflexivity.
  - right. reflexivity.
Defined.

(** ** [stopPlayback] *)

(** C7.  From every state, [stopPlayback] twice gives the state that
    [stopPlayback] once gives (the playing flag and the source ref with
    it); in the idle state it changes nothing, and from a state with a
    session it leads to the idle state. *)
Theorem stopPlayback_idempotent (st : AppState) :
  stopPlayback (stopPlayback st) = stopPlayback st
  /\ (Idle st -> stopPlayback st = st)
  /\ (is_Some (audioSourceRef st) -> Idle (stopPlayback st)).
Proof.
  unfold stopPlayback, Idle. split; [|split].
  - destruct (audioSourceRef st) as [s|] eqn:E; [reflexivity | now rewrite E].
  - intros [_ ->]. reflexivity.
  - intros [s ->]. split; reflexivity.
Qed.

Lemma stopPlayback_idempotent_witness :
  Idle (initialState (lit "Hello") (lit "Kore"))
  /\ stopPlayback (initialState (lit "Hello") (lit "Kore"))
     = initialState (lit "Hello") (lit "Kore").
Proof.
  split; [split; reflexivity|].
  apply (proj1 (proj2 (stopPlayback_idempotent
                         (initialState (lit "Hello") (lit "Kore"))))).
  split; reflexivity.
Defined.

(** ** [handleSynthesizeAndPlay] *)

Section ControllerFacts.
Variable device : AudioContext.
Variable platform_message : exn -> list N.

Lemma handle_catch_state (err : exn) (st : AppState) :
  let st' := handle_catch platform_message err st in
  isLoading st' = false /\ isPlaying st' = false
  /\ (exists m, error st' = Some m /\ m <> []
               /\ (exn_message platform_message err <> [] ->
                   m = exn_message platform_message err))
  /\ audioSourceRef st' = audioSourceRef st
  /\ audioContextRef st' = audioContextRef st
  /\ awaiting st' = awaiting st /\ sounding st' = sounding st
  /\ sources st' = sources st /\ endedQueue st' = endedQueue st
  /\ ssml st' = ssml st /\ selectedVoice st' = selectedVoice st.
Proof.
  unfold handle_catch. cbn. repeat split; try reflexivity.
  destruct (exn_message platform_message err) as [|c m].
  - eexists. split; [reflexivity|]. split; [discriminate|]. congruence.
  - eexists. split; [reflexivity|]. split; [discriminate|]. reflexivity.
Qed.

Lemma handleSynthesizeAndPlay_accepts (st : AppState) :
  isLoading st = false ->
  let st' := handleSynthesizeAndPlay st in
  isLoading st' = true /\ error st' = None
  /\ awaiting st' = awaiting st ++ [(ssml st, selectedVoice st)].
Proof.
  intros H. unfold handleSynthesizeAndPlay. rewrite H.
  unfold stopPlayback, source_stop.
  destruct (audioSourceRef st); [destruct (bool_decide _)|];
    repeat split; reflexivity.
Qed.

(** A failing attempt ends in the [catch] block, with nothing started. *)
Lemma resume_failure (st : AppState) (r : upstream)
    (text voice : list N) (rest : list (list N * list N)) (err : exn) :
  awaiting st = (text, voice) :: rest ->
  attempt_fails text voice r (default device (audioContextRef st)) err ->
  exists st1,
    resume device platform_message r st = handle_catch platform_message err st1
    /\ audioSourceRef st1 = audioSourceRef st /\ sounding st1 = sounding st
    /\ sources st1 = sources st /\ awaiting st1 = rest
    /\ ssml st1 = ssml st /\ selectedVoice st1 = selectedVoice st.
Proof.
  intros Haw Hfail. unfold resume. rewrite Haw.
  destruct Hfail as [Hs | (b64 & Hs & Hfail)]; rewrite Hs.
  - exists (setAwaiting rest st). repeat split; reflexivity.
  - unfold play_audio.
    destruct (audioContextRef st) as [ctx|] eqn:Hctx;
      cbn [default from_option id] in Hfail;
      cbn [setAwaiting audioContextRef]; rewrite Hctx;
      cbn [setAwaiting setAudioContextRef audioContextRef default
             from_option id];
      try rewrite Hctx; cbn [default from_option id].
    + exists (setAwaiting rest st).
      destruct Hfail as [Hd | (bytes & Hd & Hdec)]; rewrite Hd;
        cbn [mbind outcome_bind]; [|rewrite Hdec];
        repeat split; reflexivity.
    + exists (setAudioContextRef (Some device) (setAwaiting rest st)).
      destruct Hfail as [Hd | (bytes & Hd & Hdec)]; rewrite Hd;
        cbn [mbind outcome_bind]; [|rewrite Hdec];
        repeat split; reflexivity.
Qed.

(** C9.  When the attempt of a suspended invocation fails, in the remote
    call, in [decode] or in [decodeAudioData], the component is left not
    loading and not playing (idle, the ref being clear as it is while a
    request is pending), with a non-empty error message, the message of the
    exception when it has one; no source is started and no new request is
    issued; and the next call of [handleSynthesizeAndPlay] is accepted: it
    clears the message and issues a request. *)
Theorem failure_returns_to_idle (st : AppState) (r : upstream)
    (text voice : list N) (rest : list (list N * list N)) (err : exn) :
  awaiting st = (text, voice) :: rest ->
  attempt_fails text voice r (default device (audioContextRef st)) err ->
  let st' := resume device platform_message r st in
  isLoading st' = false /\ isPlaying st' = false
  /\ (audioSourceRef st = None -> Idle st')
  /\ (exists m, error st' = Some m /\ m <> []
               /\ (exn_message platform_message err <> [] ->
                   m = exn_message platform_message err))
  /\ sounding st' = sounding st /\ sources st' = sources st
  /\ awaiting st' = rest
  /\ (let st'' := handleSynthesizeAndPlay st' in
      isLoading st'' = true /\ error st'' = None
      /\ awaiting st'' = rest ++ [(ssml st, selectedVoice st)]).
Proof.
  intros Haw Hfail.
  destruct (resume_failure st r text voice rest err Haw Hfail)
    as (st1 & -> & Href & Hsnd & Hsrc & Hawait & Hssml & Hvoice).
  destruct (handle_catch_state err st1)
    as (Hl & Hp & Hm & Hr & _ & Ha & Hs & Hsr & _ & Hx & Hv).
  destruct (handleSynthesizeAndPlay_accepts _ Hl) as (Hl2 & He2 & Ha2).
  cbn zeta. unfold Idle. repeat split; try congruence.
Qed.

Lemma stopPlayback_pending (st : AppState) :
  pending_request st -> pending_request (stopPlayback st).
Proof.
  intros H. pose proof H as [H1 H2 H3]. unfold stopPlayback, source_stop.
  destruct (audioSourceRef st) as [s|] eqn:Href; [|exact H].
  destruct (bool_decide _); split; cbn;
    [ intros Hne; split; [apply H1, Hne | reflexivity] | exact H2
    | discriminate
    | intros Hne; split; [apply H1, Hne | reflexivity] | exact H2
    | discriminate ].
Qed.

Lemma handleSynthesizeAndPlay_pending (st : AppState) :
  pending_request st -> pending_request (handleSynthesizeAndPlay st).
Proof.
  intros H. pose proof (stopPlayback_pending st H) as [H1 H2 H3].
  unfold handleSynthesizeAndPlay.
  destruct (isLoading st) eqn:Hl; [exact H|].
  assert (Href : audioSourceRef (stopPlayback st) = None
                 /\ isPlaying (stopPlayback st) = false
                 /\ awaiting (stopPlayback st) = []).
  { destruct H as [K1 K2 K3]. unfold stopPlayback, source_stop in *.
    destruct (audioSourceRef st) as [s|] eqn:E.
    - destruct (bool_decide _); cbn; repeat split; try reflexivity;
        (destruct (awaiting st); [reflexivity|];
         destruct K1 as [K1 _]; [discriminate | congruence]).
    - repeat split; try assumption.
      + destruct (isPlaying st); [|reflexivity].
        destruct K3 as [x Hx]; [reflexivity | congruence].
      + destruct (awaiting st); [reflexivity|].
        destruct K1 as [K1 _]; [discriminate | congruence]. }
  destruct Href as (Href & Hp & Haw).
  split; cbn; rewrite ?Haw, ?Hp; cbn; auto; discriminate.
Qed.

Lemma resume_pending (r : upstream) (st : AppState) :
  pending_request st -> pending_request (resume device platform_message r st).
Proof.
  intros H. pose proof H as [H1 H2 H3]. unfold resume.
  destruct (awaiting st) as [|[text voice] rest] eqn:Haw; [exact H|].
  assert (rest = []) as -> by (destruct rest; [reflexivity | cbn in H2; lia]).
  assert (Hcatch : forall err st1,
    awaiting st1 = [] ->
    pending_request (handle_catch platform_message err st1)).
  { intros err st1 E. split; cbn; rewrite ?E; cbn; auto; try done. }
  destruct (synthesizeSpeech _ text voice) as [b64|err|].
  - unfold play_audio.
    set (st1 := match audioContextRef (setAwaiting [] st) with
                | Some _ => setAwaiting [] st
                | None => setAudioContextRef (Some device) (setAwaiting [] st)
                end).
    assert (E : awaiting st1 = [] /\ isPlaying st1 = isPlaying st
                /\ audioSourceRef st1 = audioSourceRef st).
    { subst st1. destruct (audioContextRef _); cbn; auto. }
    destruct E as (E1 & E2 & E3).
    destruct (_ ≫= _) as [audioBuffer|err|].
    + unfold source_start. split; cbn; rewrite ?E1; cbn; eauto; done.
    + now apply Hcatch.
    + split; rewrite ?E1, ?E2, ?E3; cbn; auto; done.
  - now apply Hcatch.
  - split; cbn; auto; done.
Qed.

Lemma step_pending (st : AppState) (e : event) :
  pending_request st -> pending_request (step device platform_message st e).
Proof.
  intros H. destruct e as [| | |r|s|s]; cbn [step].
  - destruct (isLoading st); [exact H|].
    destruct (isPlaying st);
      [now apply stopPlayback_pending
      | now apply handleSynthesizeAndPlay_pending].
  - now apply handleSynthesizeAndPlay_pending.
  - now apply stopPlayback_pending.
  - now apply resume_pending.
  - destruct H as [H1 H2 H3]. unfold source_stop.
    destruct (bool_decide _); split; cbn; auto.
  - destruct H as [H1 H2 H3].
    destruct (bool_decide _); split; cbn; auto; try discriminate.
    intros Hne. split; [apply H1, Hne | reflexivity].
Qed.

(** Whatever the events, a pending request finds the ref clear: a failure
    of its attempt leaves the component idle. *)
Lemma run_pending (text voice : list N) (es : list event) :
  pending_request (run device platform_message (initialState text voice) es).
Proof.
  assert (H0 : pending_request (initialState text voice)).
  { split; cbn; auto; done. }
  revert H0. generalize (initialState text voice) as st.
  induction es as [|e es IH]; intros st H0; [exact H0|].
  apply IH. now apply step_pending.
Qed.
End ControllerFacts.

(** The four kinds of failure: a rejected call, a response without audio, a
    string [atob] rejects, an odd number of bytes. *)
Lemma failure_kinds (text voice : list N) (ctx : AudioContext) :
  attempt_fails text voice (Rejected (ErrorInstance (lit "Failed to fetch")))
    ctx (JsError (lit "Failed to synthesize speech: Failed to fetch"))
  /\ attempt_fails text voice (Resolved (mkResponse None)) ctx
       (JsError (lit "Failed to synthesize speech: "
                 ++ lit "API did not return audio data."))
  /\ attempt_fails text voice (audio_response (lit "AEA*wA==")) ctx
       InvalidCharacterError
  /\ attempt_fails text voice (audio_response (lit "AEAA")) ctx RangeError.
Proof.
  split; [|split; [|split]].
  - left. reflexivity.
  - left. reflexivity.
  - right. eexists. split; [reflexivity|]. left. reflexivity.
  - right. eexists. split; [reflexivity|]. right. eexists.
    split; [reflexivity|]. reflexivity.
Qed.

Lemma failure_returns_to_idle_witness :
  awaiting loading_state = [(lit "<speak/>", lit "Kore")]
  /\ attempt_fails (lit "<speak/>") (lit "Kore")
       (audio_response (lit "AEAA")) standard_context RangeError
  /\ Idle (resume standard_context (λ _, [])
             (audio_response (lit "AEAA")) loading_state).
Proof.
  assert (Hfail : attempt_fails (lit "<speak/>") (lit "Kore")
                    (audio_response (lit "AEAA")) standard_context RangeError).
  { right. eexists. split; [reflexivity|]. right. eexists.
    split; reflexivity. }
  split; [reflexivity|]. split; [exact Hfail|].
  apply (failure_returns_to_idle standard_context (λ _, []) loading_state
           (audio_response (lit "AEAA")) (lit "<speak/>") (lit "Kore") []
           RangeError eq_refl Hfail).
  reflexivity.
Defined.

(** ** One session at a time *)

(** C8 fails on the code.  The [onended] handler clears the ref and the
    playing flag without looking at which source ended.  When the [ended]
    event of a stopped source (0) is dispatched after the next source (1)
    has started, source 1 keeps sounding while the component is idle with a
    cleared ref; the next request then starts source 2 beside it. *)
Theorem stale_ended_leaves_two_sessions (platform_message : exn -> list N) :
  let play := audio_response (lit "AEAAwA==") in
  let st0 := initialState (lit "Hello") (lit "Kore") in
  let st1 := run standard_context platform_message st0
               [Click; Settle play; Click; Click; Settle play; Ended 0] in
  let st2 := run standard_context platform_message st1 [Click; Settle play] in
  (sounding st1 = [1] /\ isPlaying st1 = false /\ audioSourceRef st1 = None)
  /\ (sounding st2 = [1; 2] /\ audioSourceRef st2 = Some 2).
Proof. cbn zeta. split; split; try split; reflexivity. Qed.

Section SingleSession.
Variable device : AudioContext.
Variable platform_message : exn -> list N.

Lemma remove_source_singleton (s : nat) : remove_source s [s] = [].
Proof.
  unfold remove_source. rewrite filter_cons_False by (intros H; now apply H).
  reflexivity.
Qed.

Lemma source_stop_single (s : nat) (st : AppState) :
  single_session st ->
  single_session (source_stop s st)
  /\ (audioSourceRef st = Some s \/ audioSourceRef st = None ->
      sounding (source_stop s st) = [])
  /\ audioSourceRef (source_stop s st) = audioSourceRef st
  /\ awaiting (source_stop s st) = awaiting st
  /\ isLoading (source_stop s st) = isLoading st.
Proof.
  intros [H1 H2 H3 H4]. unfold source_stop. case_bool_decide as Hin.
  - destruct H1 as [E | (s' & E & Href)]; rewrite E in Hin.
    + now apply elem_of_nil in Hin.
    + apply list_elem_of_singleton in Hin. subst s'.
      cbn. rewrite E, remove_source_singleton.
      repeat split; cbn; auto; try done; apply H3; assumption.
  - split; [now split|]. split; [|auto].
    intros Href. destruct H1 as [E | (s' & E & Href')]; [exact E|].
    destruct Href as [Href|Href]; rewrite Href in Href'; simplify_eq.
    rewrite E in Hin. exfalso. apply Hin. apply list_elem_of_singleton.
    reflexivity.
Qed.

Lemma stopPlayback_single (st : AppState) :
  single_session st ->
  single_session (stopPlayback st)
  /\ sounding (stopPlayback st) = []
  /\ audioSourceRef (stopPlayback st) = None
  /\ awaiting (stopPlayback st) = awaiting st
  /\ isLoading (stopPlayback st) = isLoading st.
Proof.
  intros H. unfold stopPlayback.
  destruct (audioSourceRef st) as [s|] eqn:Href.
  - destruct (source_stop_single s st H) as ([H1 H2 H3 H4] & Hs & Hr & Ha & Hl).
    specialize (Hs ltac:(auto)).
    repeat split; cbn; auto; try congruence; apply H3; assumption.
  - destruct H as [H1 H2 H3 H4].
    assert (E : sounding st = []).
    { destruct H1 as [E | (s' & _ & Href')]; [exact E | congruence]. }
    split; [split; assumption | repeat split; auto].
Qed.

Lemma handleSynthesizeAndPlay_single (st : AppState) :
  single_session st -> single_session (handleSynthesizeAndPlay st).
Proof.
  intros H. unfold handleSynthesizeAndPlay.
  destruct (isLoading st) eqn:Hl; [exact H|].
  destruct (stopPlayback_single st H) as ([H1 H2 H3 H4] & Hs & Hr & Ha & Hl').
  assert (Haw : awaiting (stopPlayback st) = []).
  { destruct (awaiting (stopPlayback st)) eqn:E; [reflexivity|].
    destruct H3 as [H3 _]; [discriminate | congruence]. }
  split; cbn; rewrite ?Haw; auto.
Qed.

Lemma resume_single (r : upstream) (st : AppState) :
  single_session st -> endedQueue st = [] ->
  single_session (resume device platform_message r st).
Proof.
  intros H Hq. pose proof H as [H1 H2 H3 H4]. unfold resume.
  destruct (awaiting st) as [|[text voice] rest] eqn:Haw; [exact H|].
  assert (rest = []) as -> by (destruct rest; [reflexivity | cbn in H4; lia]).
  destruct H3 as [Hl Href]; [discriminate|].
  assert (Hs : sounding st = []).
  { destruct H1 as [E | (s' & _ & Href')]; [exact E | congruence]. }
  assert (Hcatch : forall err st1,
    sounding st1 = [] -> awaiting st1 = [] ->
    single_session (handle_catch platform_message err st1)).
  { intros err st1 E1 E2. split; cbn; rewrite ?E1, ?E2; auto; done. }
  destruct (synthesizeSpeech _ text voice) as [b64|err|].
  - unfold play_audio.
    set (st1 := match audioContextRef (setAwaiting [] st) with
                | Some _ => setAwaiting [] st
                | None => setAudioContextRef (Some device) (setAwaiting [] st)
                end).
    assert (E : sounding st1 = [] /\ awaiting st1 = []
                /\ endedQueue st1 = []).
    { subst st1. destruct (audioContextRef _); cbn; auto. }
    destruct E as (E1 & E2 & E3).
    destruct (_ ≫= _) as [audioBuffer|err|].
    + unfold source_start. split; cbn; rewrite ?E1, ?E2, ?E3; eauto; try done.
    + now apply Hcatch.
    + split; rewrite ?E1, ?E2; auto; done.
  - now apply Hcatch.
  - split; cbn; rewrite ?Hs; auto; done.
Qed.

Lemma step_single (st : AppState) (e : event) :
  single_session st -> prompt st e ->
  single_session (step device platform_message st e).
Proof.
  intros H Hp. destruct e as [| | |r|s|s]; cbn [step].
  - destruct (isLoading st); [exact H|].
    destruct (isPlaying st);
      [ now apply stopPlayback_single
      | now apply handleSynthesizeAndPlay_single ].
  - now apply handleSynthesizeAndPlay_single.
  - now apply stopPlayback_single.
  - now apply resume_single.
  - now apply source_stop_single.
  - case_bool_decide as Hin; [|exact H].
    destruct H as [H1 H2 H3 H4].
    assert (Hs : sounding st = []).
    { destruct (sounding st) eqn:E; [reflexivity|].
      rewrite H2 in Hin by discriminate. now apply elem_of_nil in Hin. }
    split; cbn; rewrite ?Hs; auto; try done.
    intros Hne. apply H3 in Hne. tauto.
Qed.

Lemma single_session_initial (text voice : list N) :
  single_session (initialState text voice).
Proof. split; cbn; auto; done. Qed.

(** As long as [ended] events are dispatched before the next session
    starts, at most one session sounds, whatever the events. *)
Lemma single_session_run (text voice : list N) (es : list event) :
  prompt_run device platform_message (initialState text voice) es ->
  length (sounding (run device platform_message (initialState text voice) es))
  <= 1.
Proof.
  intros Hp.
  assert (H : single_session
                (run device platform_message (initialState text voice) es)).
  { pose proof (single_session_initial text voice) as H0.
    revert H0 Hp. generalize (initialState text voice) as st.
    induction es as [|e es IH]; intros st H0 Hp; [exact H0|].
    destruct Hp as [Hp1 Hp2]. apply IH; [|exact Hp2].
    now apply step_single. }
  destruct H as [[E | (s & E & _)] _ _ _]; rewrite E; cbn; lia.
Qed.
End SingleSession.

(** ** More on [decode] *)

Lemma decode_of_bytes (base64 : list N) (bs : list byte) :
  forgiving_base64_decode base64 = Some (map Byte.to_N bs) ->
  decode base64
  = Return {| buffer := bs; byteOffset := 0; u8length := length bs |}.
Proof.
  intros H. rewrite (decode_returns _ _ H).
  rewrite length_map, map_map. f_equal. f_equal.
  rewrite <- (map_id bs) at 2. apply map_ext. apply ToUint8_to_N.
Qed.

(** X1.  [decode] does not see ASCII whitespace: an input decodes as the
    input without its whitespace does, so the standard encoding of a byte
    sequence, broken by spaces or line ends anywhere, decodes to that
    sequence. *)
Theorem decode_whitespace_insensitive (base64 : list N) (bs : list byte) :
  filter (λ c, is_ascii_whitespace c = false) base64 = base64_encode bs ->
  decode base64 = decode (base64_encode bs)
  /\ decode base64
     = Return {| buffer := bs; byteOffset := 0; u8length := length bs |}.
Proof.
  intros Hf.
  assert (H : forgiving_base64_decode base64
              = forgiving_base64_decode (base64_encode bs)).
  { unfold forgiving_base64_decode.
    rewrite <- Hf, filter_whitespace_idempotent. reflexivity. }
  split.
  - unfold decode, atob. now rewrite H.
  - apply decode_of_bytes. rewrite H. apply forgiving_base64_decode_encode.
Qed.

Lemma decode_whitespace_insensitive_witness :
  decode (lit "SGVs" ++ [13; 10]%N ++ lit "bG8=" ++ [10]%N)
  = Return {| buffer := [x48; x65; x6c; x6c; x6f]; byteOffset := 0;
              u8length := 5 |}.
Proof.
  apply (decode_whitespace_insensitive
           (lit "SGVs" ++ [13; 10]%N ++ lit "bG8=" ++ [10]%N)
           [x48; x65; x6c; x6c; x6f]).
  reflexivity.
Defined.

(** X2.  [decode] does not need the padding: the standard encoding of a
    byte sequence with its [=] signs left off decodes to that sequence. *)
Theorem decode_unpadded (bs : list byte) :
  decode (map base64_char (encode_sextets bs))
  = Return {| buffer := bs; byteOffset := 0; u8length := length bs |}.
Proof.
  apply decode_of_bytes. unfold forgiving_base64_decode.
  pose proof (encode_sextets_bound bs) as Hb.
  rewrite filter_Forall_id.
  2:{ apply Forall_forall. intros c Hc. apply list_elem_of_In in Hc.
      apply in_map_iff in Hc as (v & <- & Hv).
      rewrite Forall_forall in Hb.
      apply base64_char_facts, Hb. now apply list_elem_of_In. }
  assert (Hs : strip_padding (map base64_char (encode_sextets bs))
               = map base64_char (encode_sextets bs)).
  { unfold strip_padding. rewrite (ends_with_equals_chars _ Hb).
    now destruct (_ =? 0). }
  rewrite Hs, length_map.
  destruct (Nat.eqb_spec (length (encode_sextets bs) mod 4) 1) as [E|_].
  - now apply encode_sextets_length in E.
  - rewrite (mapM_base64_value_chars _ Hb). cbn [mbind option_bind].
    now rewrite sextets_to_bytes_encode.
Qed.

(** Induction four elements at a time. *)
Lemma list_ind4 {A} (P : list A -> Prop) :
  P [] -> (forall x, P [x]) -> (forall x y, P [x; y]) ->
  (forall x y z, P [x; y; z]) ->
  (forall x y z w l, P l -> P (x :: y :: z :: w :: l)) ->
  forall l, P l.
Proof.
  intros H0 H1 H2 H3 H4 l.
  assert (H : P l /\ (forall x, P (x :: l)) /\ (forall x y, P (x :: y :: l))
              /\ (forall x y z, P (x :: y :: z :: l))).
  { induction l as [|a l (IH0 & IH1 & IH2 & IH3)]; [auto|].
    split; [apply IH1|]. split; [intros x; apply IH2|].
    split; [intros x y; apply IH3|].
    intros x y z. apply H4, IH0. }
  apply H.
Qed.

Lemma length_sextets_to_bytes (v : list N) :
  length (sextets_to_bytes v) = 3 * length v / 4.
Proof.
  induction v as [|x|x y|x y z|x y z w l IH] using list_ind4;
    try reflexivity.
  cbn [sextets_to_bytes length]. rewrite IH.
  replace (3 * S (S (S (S (length l))))) with (3 * length l + 3 * 4) by lia.
  rewrite Nat.div_add by lia. lia.
Qed.

Lemma strip_padding_prefix (l : list N) :
  exists t, l = strip_padding l ++ t /\ length t <= 2
            /\ Forall (λ c, c = 61%N) t.
Proof.
  assert (Hlast : forall l : list N, ends_with_equals l = true ->
                    l = removelast l ++ [61%N]).
  { intros l0 He. unfold ends_with_equals in He.
    destruct (last l0) as [x|] eqn:Hl; [|discriminate].
    apply N.eqb_eq in He. subst x. apply last_Some in Hl as [l' ->].
    now rewrite removelast_last. }
  unfold strip_padding.
  destruct (length l mod 4 =? 0).
  2:{ exists []. rewrite app_nil_r. repeat split; [cbn; lia | constructor]. }
  destruct (ends_with_equals l) eqn:H1.
  2:{ exists []. rewrite app_nil_r. repeat split; [cbn; lia | constructor]. }
  destruct (ends_with_equals (removelast l)) eqn:H2.
  - exists [61%N; 61%N]. split; [|split; [cbn; lia | repeat constructor]].
    rewrite (Hlast l H1) at 1. rewrite (Hlast _ H2) at 1.
    now rewrite <- app_assoc.
  - exists [61%N]. split; [|split; [cbn; lia | repeat constructor]].
    now apply Hlast.
Qed.

(** X3.  What [decode] returns is a view of its whole buffer, and the
    buffer holds three bytes for every four characters that are neither
    whitespace nor final padding, rounded down; the count of those
    characters is never one more than a multiple of four. *)
Theorem decode_length (base64 : list N) (a : Uint8Array) :
  decode base64 = Return a ->
  let k := length (strip_padding
                     (filter (λ c, is_ascii_whitespace c = false) base64)) in
  byteOffset a = 0 /\ u8length a = length (buffer a)
  /\ length (buffer a) = 3 * k / 4 /\ k mod 4 <> 1.
Proof.
  intros Hd k.
  destruct (forgiving_base64_decode base64) as [bytes|] eqn:Hf.
  2:{ unfold decode, atob in Hd. rewrite Hf in Hd. discriminate. }
  rewrite (decode_returns _ _ Hf) in Hd. injection Hd as <-.
  cbn [byteOffset u8length buffer]. rewrite length_map.
  split; [reflexivity|]. split; [reflexivity|].
  unfold forgiving_base64_decode in Hf. fold k in Hf.
  destruct (Nat.eqb_spec (k mod 4) 1) as [E|Hne]; [discriminate|].
  destruct (mapM base64_value _) as [v|] eqn:Hv; [|discriminate].
  injection Hf as <-. split; [|exact Hne].
  rewrite length_sextets_to_bytes. apply length_mapM in Hv.
  fold k in Hv. now rewrite <- Hv.
Qed.

Lemma decode_length_witness :
  length (buffer {| buffer := [x48; x69]; byteOffset := 0; u8length := 2 |})
  = 3 * length (strip_padding
                  (filter (λ c, is_ascii_whitespace c = false)
                     (lit "SGk="))) / 4.
Proof.
  apply (decode_length (lit "SGk=")
           {| buffer := [x48; x69]; byteOffset := 0; u8length := 2 |}).
  reflexivity.
Defined.

(** X4.  Padding belongs at the end only: an input that, whitespace aside,
    has a [=] followed by two or more characters is rejected; two encoded
    chunks, the first one padded, do not decode when joined. *)
Theorem decode_rejects_inner_padding (base64 l1 l2 : list N) :
  filter (λ c, is_ascii_whitespace c = false) base64 = l1 ++ 61%N :: l2 ->
  2 <= length l2 ->
  decode base64 = Throw InvalidCharacterError.
Proof.
  intros Hf Hl2. unfold decode, atob, forgiving_base64_decode. rewrite Hf.
  destruct (strip_padding_prefix (l1 ++ 61%N :: l2)) as (t & Hsplit & Ht & _).
  set (data := strip_padding (l1 ++ 61%N :: l2)) in *.
  assert (Hin : 61%N ∈ data).
  { apply list_elem_of_lookup. exists (length l1).
    assert (Hlen : length (l1 ++ 61%N :: l2) = length data + length t)
      by (rewrite Hsplit at 1; apply length_app).
    rewrite length_app in Hlen. cbn [length] in Hlen.
    assert (Hlook : (data ++ t) !! length l1 = Some 61%N)
      by (rewrite <- Hsplit; now apply list_lookup_middle).
    rewrite lookup_app_l in Hlook by lia. exact Hlook. }
  destruct (length data mod 4 =? 1); [reflexivity|].
  replace (mapM base64_value data) with (@None (list N)); [reflexivity|].
  symmetry. apply mapM_None. apply Exists_exists. exists 61%N.
  split; [exact Hin | reflexivity].
Qed.

Lemma decode_rejects_inner_padding_witness :
  decode (lit "SGk=SGk=") = Throw InvalidCharacterError.
Proof.
  apply (decode_rejects_inner_padding (lit "SGk=SGk=") (lit "SGk")
           (lit "SGk=")).
  - reflexivity.
  - cbn. lia.
Defined.

(** ** More on [decodeAudioData] *)


Lemma int16_elements_range (bs : list byte) :
  Forall (λ v, (-32768 <= v <= 32767)%Z) (int16_elements bs).
Proof.
  induction bs as [bs IH] using (induction_ltof1 _ (@length byte)).
  unfold ltof in IH.
  destruct bs as [|lo [|hi rest]]; [constructor | constructor |].
  cbn [int16_elements]. constructor; [apply int16_le_range|].
  apply IH. cbn. lia.
Qed.

Lemma number_div_normalized (v : Z) :
  (-32768 <= v <= 32767)%Z ->
  exists q, number_div v 32768 = Num q /\ (-1 <= q)%Q /\ (q < 1)%Q.
Proof.
  intros Hv. exists (Qred (inject_Z v / inject_Z 32768)).
  split; [reflexivity|]. rewrite Qred_correct. split.
  - apply Qle_shift_div_l; [reflexivity|].
    unfold Qle. cbn [Qnum Qden Qmult inject_Z]. lia.
  - apply Qlt_shift_div_r; [reflexivity|].
    unfold Qlt. cbn [Qnum Qden Qmult inject_Z]. lia.
Qed.

(** With one channel the buffer is the samples in their order. *)
Lemma decodeAudioData_one_channel (data : Uint8Array) (ctx : AudioContext)
    (rate : Q) :
  let n := length (buffer data) / 2 in
  length (buffer data) mod 2 = 0 -> 1 <= n -> (Z.of_nat n < 2 ^ 32)%Z ->
  1 <= maxChannels ctx -> supportedRate ctx rate = true ->
  decodeAudioData data ctx rate 1
  = Return {| sampleRate := rate; frames := n;
              channels := [(λ v, number_div v 32768)
                             <$> int16_elements (buffer data)] |}.
Proof.
  intros n Heven Hn Hn32 Hmax Hrate.
  destruct (decodeAudioData_returns data ctx rate 1)
    as (b & Hrun & Hsr & Hfr & Hlen & HL & Hval);
    [ exact Heven | lia | reflexivity | exact Hrate
    | fold n; rewrite Nat.div_1_r; exact Hn
    | fold n; rewrite Nat.div_1_r; exact Hn32 |].
  fold n in Hfr, HL, Hval. rewrite Nat.div_1_r in Hfr, HL, Hval.
  rewrite Hrun. f_equal. destruct b as [sr fr chs].
  cbn [sampleRate frames channels] in *. subst sr fr. f_equal.
  destruct chs as [|d [|d' chs]]; [discriminate | | discriminate].
  f_equal. apply list_eq. intros j.
  inversion_clear HL as [|? ? Hd _].
  destruct (decide (j < n)) as [Hj|Hj].
  - rewrite (Hval 0 d j eq_refl Hj). rewrite Nat.mul_1_r, Nat.add_0_r.
    unfold sample. rewrite list_lookup_fmap.
    destruct (lookup_lt_is_Some_2 (int16_elements (buffer data)) j) as [v Hv].
    { rewrite int16_elements_length. fold n. exact Hj. }
    now rewrite Hv.
  - rewrite !lookup_ge_None_2; [reflexivity | | lia].
    rewrite length_fmap, int16_elements_length. fold n. lia.
Qed.

(** X5.  Every sample of a decoded buffer is a number from -1 up to, not
    including, 1: never NaN, whatever the payload. *)
Theorem decodeAudioData_normalized (data : Uint8Array) (ctx : AudioContext)
    (rate : Q) (c : nat) :
  let n := length (buffer data) / 2 in
  length (buffer data) mod 2 = 0 ->
  1 <= c <= maxChannels ctx -> (Z.of_nat c < 2 ^ 32)%Z ->
  supportedRate ctx rate = true ->
  1 <= n / c -> (Z.of_nat (n / c) < 2 ^ 32)%Z ->
  exists b,
    decodeAudioData data ctx rate c = Return b
    /\ Forall (Forall (λ x, exists q, x = Num q /\ (-1 <= q)%Q /\ (q < 1)%Q))
         (channels b).
Proof.
  intros n Heven Hc Hc32 Hrate Hq Hq32.
  destruct (decodeAudioData_returns data ctx rate c)
    as (b & Hrun & _ & _ & Hlen & HL & Hval);
    [ exact Heven | exact Hc | exact Hc32 | exact Hrate | exact Hq
    | exact Hq32 |].
  fold n in HL, Hval. exists b. split; [exact Hrun|].
  apply Forall_lookup. intros k d Hd. apply Forall_lookup. intros j x Hx.
  assert (Hk : k < c) by (apply lookup_lt_Some in Hd; lia).
  assert (Hj : j < n / c).
  { apply lookup_lt_Some in Hx.
    rewrite Forall_lookup in HL. now rewrite (HL k d Hd) in Hx. }
  rewrite (Hval k d j Hd Hj) in Hx. injection Hx as <-.
  assert (Hidx : j * c + k < n).
  { assert (S j * c <= n / c * c) by (apply Nat.mul_le_mono_r; lia).
    pose proof (Nat.div_mod_eq n c). nia. }
  unfold sample.
  destruct (lookup_lt_is_Some_2 (int16_elements (buffer data)) (j * c + k))
    as [v Hv].
  { rewrite int16_elements_length. fold n. exact Hidx. }
  rewrite Hv. apply number_div_normalized.
  pose proof (int16_elements_range (buffer data)) as Hr.
  rewrite Forall_lookup in Hr. exact (Hr _ _ Hv).
Qed.

Lemma decodeAudioData_normalized_witness :
  exists b,
    decodeAudioData five_samples standard_context 24000%Q 2 = Return b
    /\ Forall (Forall (λ x, exists q, x = Num q /\ (-1 <= q)%Q /\ (q < 1)%Q))
         (channels b).
Proof.
  apply (decodeAudioData_normalized five_samples standard_context 24000%Q 2);
    cbn; try reflexivity; lia.
Defined.



(** X7.  Decoding after encoding: the standard base64 encoding of
    [n >= 1] samples, put through [decode] and [decodeAudioData] as the
    component does, gives one channel with the [n] samples over 32768. *)
Theorem decode_then_decodeAudioData (bs : list byte) (ctx : AudioContext) :
  let n := length bs / 2 in
  length bs mod 2 = 0 -> 1 <= n -> (Z.of_nat n < 2 ^ 32)%Z ->
  1 <= maxChannels ctx -> supportedRate ctx 24000%Q = true ->
  (bytes ← decode (base64_encode bs); decodeAudioData bytes ctx 24000%Q 1)
  = Return {| sampleRate := 24000%Q; frames := n;
              channels := [(λ v, number_div v 32768)
                             <$> int16_elements bs] |}.
Proof.
  intros n Heven Hn Hn32 Hmax Hrate.
  rewrite decode_base64_encode. cbn [mbind outcome_bind].
  now apply (decodeAudioData_one_channel
               {| buffer := bs; byteOffset := 0; u8length := length bs |}).
Qed.

Lemma decode_then_decodeAudioData_witness :
  (bytes ← decode (base64_encode [x00; x40; x00; xc0]);
   decodeAudioData bytes standard_context 24000%Q 1)
  = Return {| sampleRate := 24000%Q; frames := 4 / 2;
              channels := [(λ v, number_div v 32768)
                             <$> int16_elements [x00; x40; x00; xc0]] |}.
Proof.
  apply (decode_then_decodeAudioData [x00; x40; x00; xc0] standard_context);
    cbn; try reflexivity; lia.
Defined.



(** ** More on the SSML template *)

(** X9.  On the sliders of the component the percentage is the nominal
    one: for the rate at step [k] (the double nearest to [k / 20], from
    0.25 to 1.5) and every pitch from -20 to 20, the document has the rate
    [5 * k] percent and that pitch, in decimal digits. *)
Theorem newSsml_slider (textToSpeak : list N) (k : nat) (pitch : Z) :
  5 <= k <= 30 -> (-20 <= pitch <= 20)%Z ->
  newSsml textToSpeak
    (f64_div (f64_of_Z (Z.of_nat k)) (f64_of_Z 20)) pitch
  = Some (lit "<speak><prosody rate=" ++ dquote
          ++ decimal (5 * Z.of_nat k) ++ lit "%" ++ dquote
          ++ lit " pitch=" ++ dquote ++ decimal pitch ++ lit "st" ++ dquote
          ++ lit ">" ++ textToSpeak ++ lit "</prosody></speak>").
Proof.
  intros Hk Hp. pose proof slider_rates_round_to_percent as H.
  rewrite forallb_forall in H. specialize (H k).
  assert (Hin : In k (seq 5 26)) by (apply in_seq; lia).
  apply H in Hin. unfold newSsml.
  destruct (Math_round _) as [| |n]; try discriminate.
  apply Z.eqb_eq in Hin. subst n.
  rewrite !NumberToString_exact by lia.
  cbn [mbind option_bind]. now rewrite <- !app_assoc.
Qed.

Lemma newSsml_slider_witness :
  newSsml (lit "Hello") (f64_div (f64_of_Z (Z.of_nat 23)) (f64_of_Z 20)) 4
  = Some (lit "<speak><prosody rate=" ++ dquote
          ++ decimal (5 * Z.of_nat 23) ++ lit "%" ++ dquote
          ++ lit " pitch=" ++ dquote ++ decimal 4 ++ lit "st" ++ dquote
          ++ lit ">" ++ lit "Hello" ++ lit "</prosody></speak>").
Proof. apply (newSsml_slider (lit "Hello") 23 4); lia. Defined.

(** ** More on [synthesizeSpeech] *)

(** X10.  Whatever [synthesizeSpeech] throws is an [Error] with a message
    that is not empty: "Failed to synthesize speech: " followed by the
    message of the cause, or, for a cause that is no [Error], the fixed
    text about an unknown error.  A rejection with an [Error] keeps its
    message after the prefix. *)
Theorem synthesizeSpeech_errors
    (generateContent : list N -> list N -> upstream) (ssml voiceName : list N)
    (e : exn) :
  synthesizeSpeech generateContent ssml voiceName = Throw e ->
  exists message,
    e = JsError message /\ message <> []
    /\ ((exists cause, message = lit "Failed to synthesize speech: " ++ cause)
        \/ (generateContent ssml voiceName = Rejected OtherValue
            /\ message
               = lit "An unknown error occurred during speech synthesis."))
    /\ (forall cause,
          generateContent ssml voiceName = Rejected (ErrorInstance cause) ->
          message = lit "Failed to synthesize speech: " ++ cause).
Proof.
  unfold synthesizeSpeech, synthesizeSpeech_try.
  destruct (generateContent ssml voiceName) as [response|[cause|]].
  - destruct (inlineAudio response) as [[|c s]|]; intros H;
      try discriminate; injection H as <-;
      (eexists; split; [reflexivity|]; split; [discriminate|];
       split; [left; eexists; reflexivity | intros cause; discriminate]).
  - intros H. injection H as <-. eexists. split; [reflexivity|].
    split; [discriminate|]. split; [left; eexists; reflexivity|].
    intros cause' Hc. now injection Hc as <-.
  - intros H. injection H as <-. eexists. split; [reflexivity|].
    split; [discriminate|]. split; [right; split; reflexivity|].
    intros cause; discriminate.
Qed.

Lemma synthesizeSpeech_errors_witness :
  exists message,
    JsError (lit "Failed to synthesize speech: " ++ lit "Failed to fetch")
    = JsError message /\ message <> [].
Proof.
  destruct (synthesizeSpeech_errors
              (λ _ _, Rejected (ErrorInstance (lit "Failed to fetch")))
              (lit "<speak/>") (lit "Kore")
              (JsError (lit "Failed to synthesize speech: "
                        ++ lit "Failed to fetch")) eq_refl)
    as (message & He & Hne & _).
  exists message. split; [exact He | exact Hne].
Defined.

(** X11.  Only the first part of the first candidate is read: a response
    whose first part carries no inline data is refused as without audio,
    whatever the later parts and candidates carry; with inline data there,
    the result does not depend on the rest. *)
Theorem synthesizeSpeech_first_part_only
    (generateContent : list N -> list N -> upstream) (ssml voiceName : list N)
    (p : Part) (ps : list Part) (cs : list Candidate) :
  generateContent ssml voiceName
  = Resolved (mkResponse (Some
      (mkCandidate (Some (mkContent (Some (p :: ps)))) :: cs))) ->
  synthesizeSpeech generateContent ssml voiceName
  = synthesizeSpeech
      (λ _ _, Resolved (mkResponse (Some
         [mkCandidate (Some (mkContent (Some [p])))])))
      ssml voiceName
  /\ (inlineData p = None ->
      synthesizeSpeech generateContent ssml voiceName
      = Throw (JsError (lit "Failed to synthesize speech: "
                        ++ lit "API did not return audio data."))).
Proof.
  intros Hg. unfold synthesizeSpeech, synthesizeSpeech_try. rewrite Hg.
  split; [reflexivity|]. intros Hp.
  unfold inlineAudio. cbn. now rewrite Hp.
Qed.

Lemma synthesizeSpeech_first_part_only_witness :
  synthesizeSpeech
    (λ _ _, Resolved (mkResponse (Some
       [mkCandidate (Some (mkContent (Some
          [mkPart None; mkPart (Some (mkBlob (Some (lit "AEAAwA=="))))])))])))
    (lit "<speak/>") (lit "Kore")
  = Throw (JsError (lit "Failed to synthesize speech: "
                    ++ lit "API did not return audio data.")).
Proof.
  apply (proj2 (synthesizeSpeech_first_part_only _ (lit "<speak/>")
                  (lit "Kore") (mkPart None)
                  [mkPart (Some (mkBlob (Some (lit "AEAAwA=="))))] []
                  eq_refl)).
  reflexivity.
Defined.

(** ** More on the playback controller *)

Lemma not_true_iff_not_some (b : bool) (o : option nat) :
  (b = true <-> is_Some o) -> o = None -> b = false.
Proof.
  intros H ->. destruct b; [|reflexivity].
  destruct (proj1 H eq_refl) as [x Hx]. discriminate.
Qed.

Ltac state_simpl :=
  cbn [ssml selectedVoice isLoading isPlaying error audioContextRef
       audioSourceRef sources sounding endedQueue awaiting setIsLoading
       setIsPlaying setError setAudioContextRef setAudioSourceRef
       setAwaiting].

Section Consistency.
Variable device : AudioContext.
Variable platform_message : exn -> list N.

Lemma stopPlayback_consistent (st : AppState) :
  controller_consistent st -> controller_consistent (stopPlayback st).
Proof.
  intros H. pose proof H as [H1 H2 H3 H4 H5]. unfold stopPlayback, source_stop.
  destruct (audioSourceRef st) as [s|] eqn:Href; [|exact H].
  destruct (bool_decide _); split; cbn; auto;
    try (split; [discriminate | intros [x Hx]; discriminate]);
    intros He; (split; [apply H5, He | reflexivity]).
Qed.

Lemma handleSynthesizeAndPlay_consistent (st : AppState) :
  controller_consistent st ->
  controller_consistent (handleSynthesizeAndPlay st).
Proof.
  intros H. pose proof (stopPlayback_consistent st H) as [H1 H2 H3 H4 H5].
  unfold handleSynthesizeAndPlay.
  destruct (isLoading st) eqn:Hl; [exact H|].
  assert (Hl' : isLoading (stopPlayback st) = false).
  { unfold stopPlayback, source_stop.
    destruct (audioSourceRef st); [destruct (bool_decide _)|]; exact Hl. }
  assert (Href : audioSourceRef (stopPlayback st) = None).
  { unfold stopPlayback, source_stop.
    destruct (audioSourceRef st) eqn:E; [destruct (bool_decide _)|];
      cbn; congruence. }
  assert (Haw : awaiting (stopPlayback st) = []).
  { destruct (awaiting (stopPlayback st)) eqn:E; [reflexivity|].
    assert (isLoading (stopPlayback st) = true)
      by (apply H1; try rewrite E; discriminate).
    congruence. }
  split; state_simpl; rewrite ?Haw.
  - split; [discriminate | reflexivity].
  - cbn. lia.
  - exact H3.
  - intros _. exact Href.
  - intros [x Hx]. discriminate.
Qed.

Lemma decode_total (base64 : list N) : decode base64 <> OutOfFuel.
Proof. unfold decode, atob. now destruct (forgiving_base64_decode _). Qed.

Lemma attempt_total (base64Audio : list N) (ctx : AudioContext) :
  (bytes ← decode base64Audio; decodeAudioData bytes ctx 24000%Q 1)
  <> OutOfFuel.
Proof.
  pose proof (decode_total base64Audio) as Hd.
  destruct (decode base64Audio) as [bytes| |]; cbn [mbind outcome_bind];
    [apply decodeAudioData_total | discriminate | contradiction].
Qed.

Lemma resume_consistent (r : upstream) (st : AppState) :
  controller_consistent st ->
  controller_consistent (resume device platform_message r st).
Proof.
  intros H. pose proof H as [H1 H2 H3 H4 H5]. unfold resume.
  destruct (awaiting st) as [|[text voice] rest] eqn:Haw; [exact H|].
  assert (rest = []) as -> by (destruct rest; [reflexivity | cbn in H2; lia]).
  assert (Hl : isLoading st = true) by (apply H1; discriminate).
  assert (Href : audioSourceRef st = None) by (apply H4, Hl).
  assert (Hp : isPlaying st = false)
    by (exact (not_true_iff_not_some _ _ H3 Href)).
  assert (He : error st = None).
  { destruct (error st) eqn:E; [|reflexivity].
    destruct H5 as [H5 _]; [eexists; reflexivity | congruence]. }
  assert (Hcatch : forall err st1,
    awaiting st1 = [] -> audioSourceRef st1 = None ->
    controller_consistent (handle_catch platform_message err st1)).
  { intros err st1 E1 E2. split; cbn; rewrite ?E1, ?E2; cbn; auto.
    - split; [discriminate | intros Hn; now contradiction Hn].
    - split; [discriminate | intros [x Hx]; discriminate]. }
  unfold synthesizeSpeech.
  destruct (synthesizeSpeech_try r) as [[message|]|base64Audio];
    [now apply Hcatch | now apply Hcatch |].
  unfold play_audio.
  set (st1 := match audioContextRef (setAwaiting [] st) with
              | Some _ => setAwaiting [] st
              | None => setAudioContextRef (Some device) (setAwaiting [] st)
              end).
  assert (E : awaiting st1 = [] /\ audioSourceRef st1 = None
              /\ error st1 = None).
  { subst st1. destruct (audioContextRef _); cbn; auto. }
  destruct E as (E1 & E2 & E3).
  pose proof (attempt_total base64Audio
                (default device (audioContextRef st1))) as Htot.
  destruct (_ ≫= _) as [audioBuffer|err|];
    [| now apply Hcatch | contradiction].
  unfold source_start. split; cbn; rewrite ?E1, ?E3; cbn; auto.
  - split; [discriminate | intros Hn; now contradiction Hn].
  - split; [eauto | reflexivity].
  - discriminate.
  - intros [x Hx]. discriminate.
Qed.

Lemma step_consistent (st : AppState) (e : event) :
  controller_consistent st ->
  controller_consistent (step device platform_message st e).
Proof.
  intros H. destruct e as [| | |r|s|s]; cbn [step].
  - destruct (isLoading st); [exact H|].
    destruct (isPlaying st);
      [ now apply stopPlayback_consistent
      | now apply handleSynthesizeAndPlay_consistent ].
  - now apply handleSynthesizeAndPlay_consistent.
  - now apply stopPlayback_consistent.
  - now apply resume_consistent.
  - destruct H as [H1 H2 H3 H4 H5]. unfold source_stop.
    destruct (bool_decide _); split; cbn; auto.
  - pose proof H as [H1 H2 H3 H4 H5].
    destruct (bool_decide _); [|exact H]. split; cbn; auto.
    + split; [discriminate | intros [x Hx]; discriminate].
    + intros He. split; [apply H5, He | reflexivity].
Qed.

Lemma initialState_consistent (text voice : list N) :
  controller_consistent (initialState text voice).
Proof.
  split; cbn; auto.
  - split; [discriminate | intros Hn; now contradiction Hn].
  - split; [discriminate | intros [x Hx]; discriminate].
Qed.

Lemma run_consistent (st : AppState) (es : list event) :
  controller_consistent st ->
  controller_consistent (run device platform_message st es).
Proof.
  revert st. induction es as [|e es IH]; intros st H0; [exact H0|].
  apply IH. now apply step_consistent.
Qed.

(** X12.  In every state the component reaches, whatever the events: the
    loading flag is set exactly while an invocation is suspended, and one
    is at most; the playing flag is set exactly while the ref holds a
    source; loading and a source in the ref exclude each other; and an
    error message is there only when the component neither loads nor
    plays. *)
Theorem controller_stays_consistent (text voice : list N)
    (es : list event) :
  controller_consistent
    (run device platform_message (initialState text voice) es).
Proof. apply run_consistent, initialState_consistent. Qed.

End Consistency.

Section Playback.
Variable device : AudioContext.
Variable platform_message : exn -> list N.

Lemma single_session_reachable (text voice : list N) (es : list event) :
  prompt_run device platform_message (initialState text voice) es ->
  single_session (run device platform_message (initialState text voice) es).
Proof.
  pose proof (single_session_initial text voice) as H0.
  revert H0. generalize (initialState text voice) as st.
  induction es as [|e es IH]; intros st H0 Hp; [exact H0|].
  destruct Hp as [Hp1 Hp2]. apply IH; [|exact Hp2].
  now apply step_single.
Qed.

(** X13.  As long as the [ended] event of every stopped source is
    dispatched before the awaited call settles, the component plays one
    source at most, and it is the source in the ref: with an empty ref
    nothing sounds, and a sounding source shows as playing. *)
Theorem one_session_when_ended_is_prompt (text voice : list N)
    (es : list event) :
  prompt_run device platform_message (initialState text voice) es ->
  let st := run device platform_message (initialState text voice) es in
  length (sounding st) <= 1
  /\ (forall s, s ∈ sounding st ->
        audioSourceRef st = Some s /\ isPlaying st = true)
  /\ (audioSourceRef st = None -> sounding st = []).
Proof.
  intros Hp st.
  pose proof (single_session_reachable text voice es Hp) as [H1 _ _ _].
  pose proof (run_consistent device platform_message _ es
                (initialState_consistent text voice)) as [_ _ H3 _ _].
  fold st in H1, H3.
  destruct H1 as [E | (s & E & Href)]; rewrite E.
  - split; [cbn; lia|]. split; [|reflexivity].
    intros s Hs. now apply elem_of_nil in Hs.
  - split; [cbn; lia|]. split.
    + intros s' Hs. apply list_elem_of_singleton in Hs. subst s'.
      split; [exact Href|]. apply H3. rewrite Href. eexists; reflexivity.
    + intros Hn. congruence.
Qed.

(** X14.  A response with audio that decodes starts playback: the loading
    flag falls, a new source holds the decoded buffer, sounds and is put in
    the ref, the playing flag rises; the sources that sounded before are
    left as they were. *)
Theorem success_starts_playback (st : AppState) (text voice : list N)
    (rest : list (list N * list N)) (c : N) (base64Audio : list N)
    (bytes : Uint8Array) (audioBuffer : AudioBuffer) :
  awaiting st = (text, voice) :: rest ->
  decode (c :: base64Audio) = Return bytes ->
  decodeAudioData bytes (default device (audioContextRef st)) 24000%Q 1
  = Return audioBuffer ->
  let st' := resume device platform_message
               (audio_response (c :: base64Audio)) st in
  isLoading st' = false /\ isPlaying st' = true
  /\ audioSourceRef st' = Some (length (sources st))
  /\ sources st' = sources st ++ [audioBuffer]
  /\ sounding st' = sounding st ++ [length (sources st)]
  /\ endedQueue st' = endedQueue st
  /\ error st' = error st /\ awaiting st' = rest
  /\ audioContextRef st' = Some (default device (audioContextRef st)).
Proof.
  intros Haw Hd Hdec. unfold resume. rewrite Haw.
  change (synthesizeSpeech _ text voice) with (Return (c :: base64Audio)).
  cbn iota beta. unfold play_audio.
  destruct (audioContextRef st) as [ctx|] eqn:Hctx;
    cbn [default from_option id] in Hdec;
    state_simpl; rewrite Hctx; state_simpl; try rewrite Hctx;
    cbn [default from_option id];
    rewrite Hd; cbn [mbind outcome_bind]; rewrite Hdec;
    unfold source_start; state_simpl; rewrite ?Hctx;
    repeat split; reflexivity.
Qed.

Lemma step_context (st : AppState) (e : event) (ctx : AudioContext) :
  audioContextRef st = Some ctx ->
  audioContextRef (step device platform_message st e) = Some ctx.
Proof.
  intros H.
  assert (Hstop : audioContextRef (stopPlayback st) = Some ctx).
  { unfold stopPlayback, source_stop.
    destruct (audioSourceRef st); [destruct (bool_decide _)|]; exact H. }
  assert (Hplay : audioContextRef (handleSynthesizeAndPlay st) = Some ctx).
  { unfold handleSynthesizeAndPlay. destruct (isLoading st); [exact H|].
    exact Hstop. }
  destruct e as [| | |r|s|s]; cbn [step].
  - destruct (isLoading st); [exact H|].
    destruct (isPlaying st); [exact Hstop | exact Hplay].
  - exact Hplay.
  - exact Hstop.
  - unfold resume. destruct (awaiting st) as [|[text voice] rest]; [exact H|].
    destruct (synthesizeSpeech _ text voice) as [b64|err|];
      [|exact H|exact H].
    unfold play_audio. state_simpl. rewrite H. state_simpl. rewrite H.
    destruct (_ ≫= _); [|exact H|exact H].
    unfold source_start. state_simpl. exact H.
  - unfold source_stop. destruct (bool_decide _); exact H.
  - destruct (bool_decide _); exact H.
Qed.

(** X15.  The audio context is made once: after one is in its ref, no
    event replaces or clears it. *)
Theorem audio_context_is_kept (st : AppState) (es : list event)
    (ctx : AudioContext) :
  audioContextRef st = Some ctx ->
  audioContextRef (run device platform_message st es) = Some ctx.
Proof.
  revert st. induction es as [|e es IH]; intros st H; [exact H|].
  apply IH. now apply step_context.
Qed.

(** X16.  A source that plays to its end: when it falls silent the
    component still shows it as playing, and the [ended] event then leaves
    the component idle with nothing sounding and nothing queued; the
    loading flag, the error message and the suspended invocation are not
    touched. *)
Theorem natural_completion (st : AppState) (s : nat) :
  audioSourceRef st = Some s -> sounding st = [s] -> endedQueue st = [] ->
  let st1 := step device platform_message st (Finish s) in
  let st2 := step device platform_message st1 (Ended s) in
  (sounding st1 = [] /\ audioSourceRef st1 = Some s
   /\ isPlaying st1 = isPlaying st)
  /\ (Idle st2 /\ sounding st2 = [] /\ endedQueue st2 = []
      /\ isLoading st2 = isLoading st /\ error st2 = error st
      /\ awaiting st2 = awaiting st /\ sources st2 = sources st).
Proof.
  intros Href Hs Hq. cbn [step]. unfold source_stop. rewrite Hs.
  rewrite bool_decide_eq_true_2 by (apply list_elem_of_singleton; reflexivity).
  state_simpl. rewrite Hq. cbn [app].
  rewrite bool_decide_eq_true_2 by (apply list_elem_of_singleton; reflexivity).
  unfold onended, Idle, remove_source. state_simpl.
  rewrite !filter_cons_False by (intros H; now apply H).
  rewrite filter_nil. repeat split; try reflexivity; exact Href.
Qed.

(** X17.  [stopPlayback] reaches the source in the ref and nothing else: that
    source stops sounding, every other sounding source goes on, and the
    loading flag, the suspended invocation, the error message and the
    context are left as they are: it does not cancel a request. *)
Theorem stopPlayback_reach (st : AppState) :
  (forall s, audioSourceRef st = Some s -> s ∉ sounding (stopPlayback st))
  /\ (forall s s', audioSourceRef st = Some s -> s' <> s ->
        s' ∈ sounding st -> s' ∈ sounding (stopPlayback st))
  /\ isLoading (stopPlayback st) = isLoading st
  /\ awaiting (stopPlayback st) = awaiting st
  /\ error (stopPlayback st) = error st
  /\ audioContextRef (stopPlayback st) = audioContextRef st
  /\ sources (stopPlayback st) = sources st.
Proof.
  unfold stopPlayback, source_stop.
  destruct (audioSourceRef st) as [s0|] eqn:Href.
  - case_bool_decide as Hin; state_simpl.
    + split; [|split; [|repeat split; reflexivity]].
      * intros s Hs. injection Hs as ->. unfold remove_source.
        intros H. apply list_elem_of_filter in H as [H _]. now apply H.
      * intros s s' Hs Hne Hin'. injection Hs as ->. unfold remove_source.
        apply list_elem_of_filter. split; assumption.
    + split; [|split; [|repeat split; reflexivity]].
      * intros s Hs. now injection Hs as <-.
      * intros s s' _ _ Hin'. exact Hin'.
  - split; [intros s Hs; discriminate|].
    split; [intros s s' Hs; discriminate|]. repeat split; reflexivity.
Qed.

End Playback.

Lemma one_session_when_ended_is_prompt_witness :
  length (sounding
            (run standard_context (λ _, [])
               (initialState (lit "Hello") (lit "Kore"))
               [Click; Settle (audio_response (lit "AEAAwA==")); Click;
                Ended 0; Click; Settle (audio_response (lit "AEAAwA=="))]))
  <= 1.
Proof.
  apply (one_session_when_ended_is_prompt standard_context (λ _, [])
           (lit "Hello") (lit "Kore")
           [Click; Settle (audio_response (lit "AEAAwA==")); Click;
            Ended 0; Click; Settle (audio_response (lit "AEAAwA=="))]).
  vm_compute. repeat split; reflexivity.
Defined.

Lemma success_starts_playback_witness :
  isPlaying (resume standard_context (λ _, [])
               (audio_response (lit "AEAAwA==")) loading_state) = true.
Proof.
  apply (success_starts_playback standard_context (λ _, []) loading_state
           (lit "<speak/>") (lit "Kore") [] 65%N (lit "EAAwA==")
           two_samples
           {| sampleRate := 24000%Q; frames := 2;
              channels := [[Num (1 # 2); Num (-1 # 2)]] |});
    reflexivity.
Defined.

Lemma audio_context_is_kept_witness :
  audioContextRef
    (run standard_context (λ _, [])
       (setAudioContextRef (Some standard_context) loading_state)
       [Settle (audio_response (lit "AEAAwA==")); Click; Ended 0])
  = Some standard_context.
Proof.
  apply (audio_context_is_kept standard_context (λ _, [])
           (setAudioContextRef (Some standard_context) loading_state)).
  reflexivity.
Defined.

Lemma natural_completion_witness :
  Idle (step standard_context (λ _, [])
          (step standard_context (λ _, []) playing_state (Finish 0))
          (Ended 0)).
Proof.
  apply (natural_completion standard_context (λ _, []) playing_state 0);
    reflexivity.
Defined.

(** ** The voices and the pitch slider *)

(** X18.  The voice table serves as a list of keys: the values of the
    options are pairwise different, and the option the component starts
    with, the first one, is there. *)
Theorem VOICE_OPTIONS_keys :
  NoDup (value <$> VOICE_OPTIONS)
  /\ is_Some initialVoice
  /\ forall v, initialVoice = Some v -> v ∈ (value <$> VOICE_OPTIONS).
Proof.
  split; [|split].
  - cbn. repeat (constructor; [cbn; rewrite ?elem_of_cons, ?elem_of_nil;
                               intuition discriminate |]).
    constructor.
  - eexists. reflexivity.
  - intros v Hv. injection Hv as <-. cbn. left.
Qed.

Lemma pitch_positions :
  forallb (λ z, match pitch_onChange (decimal z) with
                | Int z' => (z' =? z)%Z
                | _ => false
                end) (zrange (-20) 41) = true.
Proof. vm_compute. reflexivity. Qed.

(** X19.  The pitch slider keeps what it shows: at every position, an
    integer from -20 to 20 shown as its decimal string, the handler reads
    back that integer, which the template prints as the same string. *)
Theorem pitch_slider_round_trip (z : Z) :
  (-20 <= z <= 20)%Z ->
  pitch_onChange (decimal z) = Int z
  /\ NumberToString (pitch_onChange (decimal z)) = Some (decimal z).
Proof.
  intros Hz. pose proof pitch_positions as H.
  rewrite forallb_forall in H.
  specialize (H z (In_zrange z (-20) 41 ltac:(lia))).
  destruct (pitch_onChange (decimal z)) as [| |z']; try discriminate.
  apply Z.eqb_eq in H. subst z'. split; [reflexivity|].
  apply NumberToString_exact. lia.
Qed.

Lemma pitch_slider_round_trip_witness :
  pitch_onChange (decimal (-3)) = Int (-3).
Proof. apply (pitch_slider_round_trip (-3)). lia. Defined.
